(** * AR Deathmatch client: session state machine and pose-based hit scoring

    A shallow embedding of [src/app/page.tsx] (the [Game] component).

    - JavaScript numbers are IEEE-754 binary64 values: keypoint coordinates
      and confidence scores are modelled by Rocq's primitive [float], with
      the same operations the source applies ([+], [-], [*], [/],
      [Math.sqrt], [<], [>], [>=]).  [Math.pow(v, 2)] is [v * v].
    - [Date.now()] and [lastShot] are integral millisecond counts: [Z].
    - React state ([useState]) is a record threaded through the handlers.
      The socket handlers are created by the first effect, whose only
      dependency is [gameStatus]: the [playerUpdate] handler tests the
      [gameStatus] captured when the effect ran, which a configuration
      keeps beside the current state until the next render.
    - Collaborators (relay socket, PoseNet model, video element, audio
      element) are observed through the list of effects a handler performs;
      [console.log] output is not an effect of the model. *)

From Stdlib Require Import ZArith List String Bool Lia.
From Stdlib Require Import Floats.
Import ListNotations.

Local Open Scope string_scope.
Local Open Scope list_scope.

(** Decimal literals denote the nearest binary64 value, as in JavaScript. *)
Set Warnings "-inexact-float".

(** ** Data model *)

(** [interface Player]. *)
Record Player := { id : string; health : Z; ready : bool }.

(** The three values of [gameStatus]: "waiting", "ready", "over". *)
Inductive GameStatus := Waiting | Ready | Over.

(** The three values of [selectedGun]. *)
Inductive Gun := sniper | pistol | shotgun.

Definition GameStatus_eqb (a b : GameStatus) : bool :=
  match a, b with
  | Waiting, Waiting | Ready, Ready | Over, Over => true
  | _, _ => false
  end.

Definition Gun_eqb (a b : Gun) : bool :=
  match a, b with
  | sniper, sniper | pistol, pistol | shotgun, shotgun => true
  | _, _ => false
  end.

(** The [useState] cells of [Game] that the handlers read or write. *)
Record State := {
  players : list Player;
  gameStatus : GameStatus;
  socketId : option string;
  winner : option string;
  lastShot : Z;
  selectedGun : Gun
}.

Definition setPlayers (v : list Player) (s : State) : State :=
  {| players := v; gameStatus := gameStatus s; socketId := socketId s;
     winner := winner s; lastShot := lastShot s; selectedGun := selectedGun s |}.
Definition setGameStatus (v : GameStatus) (s : State) : State :=
  {| players := players s; gameStatus := v; socketId := socketId s;
     winner := winner s; lastShot := lastShot s; selectedGun := selectedGun s |}.
Definition setSocketId (v : option string) (s : State) : State :=
  {| players := players s; gameStatus := gameStatus s; socketId := v;
     winner := winner s; lastShot := lastShot s; selectedGun := selectedGun s |}.
Definition setWinner (v : option string) (s : State) : State :=
  {| players := players s; gameStatus := gameStatus s; socketId := socketId s;
     winner := v; lastShot := lastShot s; selectedGun := selectedGun s |}.
Definition setLastShot (v : Z) (s : State) : State :=
  {| players := players s; gameStatus := gameStatus s; socketId := socketId s;
     winner := winner s; lastShot := v; selectedGun := selectedGun s |}.
Definition setSelectedGun (v : Gun) (s : State) : State :=
  {| players := players s; gameStatus := gameStatus s; socketId := socketId s;
     winner := winner s; lastShot := lastShot s; selectedGun := v |}.

(** The initial values given to [useState]. *)
Definition initialState : State :=
  {| players := []; gameStatus := Waiting; socketId := None;
     winner := None; lastShot := 0; selectedGun := pistol |}.

(** A PoseNet keypoint: [{ part, position: { x, y }, score }]. *)
Record Position := { x : float; y : float }.
Record Keypoint := { part : string; position : Position; score : float }.

(** The value [estimateSinglePose] resolves to. *)
Record Pose := { keypoints : list Keypoint }.

(** The outcome of awaiting [estimateSinglePose]: a pose, or a rejection,
    which the [try]/[catch] of [handleShoot] receives. *)
Inductive Estimate := Resolved (poses : Pose) | Rejected.

(** The video element, as far as [handleShoot] inspects it. *)
Record Video := { readyState : Z }.

(** The [useRef] cells; a [bool] is [true] when [.current] is not null. *)
Record Refs := {
  socketRef : bool;
  netRef : bool;
  videoRef : option Video;
  shootSoundRef : bool;
  hitSoundRef : bool
}.

(** What a handler does to its collaborators, in order. *)
Inductive Effect :=
| EmitJoinGame                                       (* socket.emit("joinGame") *)
| EmitShoot (shooterId : option string) (damage : Z) (* emit("shoot", {shooterId, damage}) *)
| EmitResetGame                                      (* emit("resetGame") *)
| Sleep (ms : Z)                                     (* await of a setTimeout promise *)
| EstimateSinglePose                                 (* netRef.current.estimateSinglePose *)
| PlayShootSound                                     (* shootSoundRef.current.play() *)
| PlayHitSound.                                      (* hitSoundRef.current.play() *)

(** ** Numbers *)

(** JavaScript [a > b] and [a >= b] on numbers. *)
Definition gtb (a b : float) : bool := (b <? a)%float.
Definition geb (a b : float) : bool := (b <=? a)%float.

(** An array length as a number. *)
Definition of_nat (n : nat) : float := of_uint63 (Uint63.of_Z (Z.of_nat n)).

(** ** Hit detection ([handleShoot], lines 220-322) *)

Definition headParts : list string :=
  ["nose"; "leftEye"; "rightEye"; "leftEar"; "rightEar"].
Definition torsoParts : list string :=
  ["leftShoulder"; "rightShoulder"; "leftHip"; "rightHip"].
Definition lowerBodyParts : list string := ["leftHip"; "rightHip"].

Definition centerX : float := 320.
Definition centerY : float := 240.
Definition scaleX : float := 1.
Definition scaleY : float := 1.
Definition threshold : float := 0.5.

(** [selectedGun === "sniper" ? 100 : selectedGun === "pistol" ? 200 : 400] *)
Definition radius (selectedGun : Gun) : float :=
  if Gun_eqb selectedGun sniper then 100
  else if Gun_eqb selectedGun pistol then 200 else 400.

(** [Array.prototype.includes] on part names. *)
Definition includes (l : list string) (p : string) : bool :=
  existsb (String.eqb p) l.

(** [poses.keypoints.find((k) => k.part === part)] *)
Definition findPart (poses : Pose) (p : string) : option Keypoint :=
  find (fun k => String.eqb (part k) p) (keypoints poses).

(** The filter predicate [(k) => k && k.score > 0.3]. *)
Definition confident (o : option Keypoint) : bool :=
  match o with
  | Some k => gtb (score k) 0.3
  | None => false
  end.

(** The elements of an array that are not [undefined]. *)
Fixpoint defined (l : list (option Keypoint)) : list Keypoint :=
  match l with
  | [] => []
  | Some k :: l' => k :: defined l'
  | None :: l' => defined l'
  end.

(** [parts.map((part) => poses.keypoints.find(...)).filter((k) => k && k.score > 0.3)] *)
Definition groupKeypoints (parts : list string) (poses : Pose) : list Keypoint :=
  defined (filter confident (map (findPart poses) parts)).

(** [ks.length ? ks.reduce((sum, k) => sum + k.score, 0) / ks.length : 0] *)
Definition collectiveScore (ks : list Keypoint) : float :=
  if Nat.eqb (List.length ks) 0 then 0%float
  else (fold_left (fun sum k => sum + score k) ks 0 / of_nat (List.length ks))%float.

Definition headKeypoints (poses : Pose) := groupKeypoints headParts poses.
Definition torsoKeypoints (poses : Pose) := groupKeypoints torsoParts poses.
Definition lowerBodyKeypoints (poses : Pose) := groupKeypoints lowerBodyParts poses.

Definition headScore (poses : Pose) := collectiveScore (headKeypoints poses).
Definition torsoScore (poses : Pose) := collectiveScore (torsoKeypoints poses).
Definition lowerBodyScore (poses : Pose) := collectiveScore (lowerBodyKeypoints poses).

Definition headZoneMax : float := (480 * 0.5)%float.
Definition torsoZoneMin : float := headZoneMax.
Definition torsoZoneMax : float := (480 * 0.85)%float.

(** The four variables the loop assigns. *)
Record Locals := {
  hitDetected : bool;
  damage : Z;
  bestScore : float;
  hitType : string
}.

Definition initialLocals : Locals :=
  {| hitDetected := false; damage := 0; bestScore := 0%float; hitType := "" |}.

Definition adjustedX (keypoint : Keypoint) : float := (x (position keypoint) * scaleX)%float.
Definition adjustedY (keypoint : Keypoint) : float := (y (position keypoint) * scaleY)%float.

(** [Math.sqrt(Math.pow(adjustedX - centerX, 2) + Math.pow(adjustedY - centerY, 2))] *)
Definition distance (keypoint : Keypoint) : float :=
  sqrt ((adjustedX keypoint - centerX) * (adjustedX keypoint - centerX)
        + (adjustedY keypoint - centerY) * (adjustedY keypoint - centerY))%float.

(** The three conditions of the [if] / [else if] chain. *)
Definition headCond (poses : Pose) (keypoint : Keypoint) : bool :=
  includes headParts (part keypoint)
  && (adjustedY keypoint <? headZoneMax)%float
  && gtb (headScore poses) threshold.

Definition torsoCond (poses : Pose) (keypoint : Keypoint) : bool :=
  includes torsoParts (part keypoint)
  && geb (adjustedY keypoint) torsoZoneMin
  && (adjustedY keypoint <? torsoZoneMax)%float
  && gtb (torsoScore poses) threshold.

Definition lowerBodyCond (poses : Pose) (keypoint : Keypoint) : bool :=
  includes lowerBodyParts (part keypoint)
  && geb (adjustedY keypoint) torsoZoneMax
  && gtb (lowerBodyScore poses) threshold.

(** [if (zoneScore > bestScore) { bestScore = zoneScore; damage = d; hitType = t }] *)
Definition improve (zoneScore : float) (d : Z) (t : string) (v : Locals) : Locals :=
  if gtb zoneScore (bestScore v)
  then {| hitDetected := hitDetected v; damage := d; bestScore := zoneScore; hitType := t |}
  else v.

Definition setHitDetected (v : Locals) : Locals :=
  {| hitDetected := true; damage := damage v; bestScore := bestScore v; hitType := hitType v |}.

(** One iteration of [for (const keypoint of allKeypoints)]. *)
Definition loopBody (selectedGun : Gun) (poses : Pose) (v : Locals) (keypoint : Keypoint) : Locals :=
  if (distance keypoint <? radius selectedGun)%float then
    setHitDetected
      (if headCond poses keypoint then improve (headScore poses) 20 "Headshot" v
       else if torsoCond poses keypoint then improve (torsoScore poses) 15 "Torso shot" v
       else if lowerBodyCond poses keypoint then improve (lowerBodyScore poses) 10 "Lower body shot" v
       else v)
  else v.

(** [[...headKeypoints, ...torsoKeypoints, ...lowerBodyKeypoints]] *)
Definition allKeypoints (poses : Pose) : list Keypoint :=
  headKeypoints poses ++ torsoKeypoints poses ++ lowerBodyKeypoints poses.

Definition runLoop (selectedGun : Gun) (poses : Pose) (ks : list Keypoint) (v : Locals) : Locals :=
  fold_left (loopBody selectedGun poses) ks v.

(** The values of [hitDetected], [damage], [bestScore], [hitType] when the
    loop ends. *)
Definition detectHit (selectedGun : Gun) (poses : Pose) : Locals :=
  runLoop selectedGun poses (allKeypoints poses) initialLocals.


(** ** The shot operation ([handleShoot], lines 188-338)

    [now] is the value of [Date.now()]; [est] is what awaiting
    [estimateSinglePose] yields, should the handler call it.  The state cells
    ([lastShot], [selectedGun], [socketId]) are those of the render whose
    handler is invoked. *)
Definition handleShoot (r : Refs) (now : Z) (est : Estimate) (s : State)
  : State * list Effect :=
  match socketRef r, netRef r, videoRef r with
  | true, true, Some video =>
      if (now - lastShot s <? 500)%Z then (s, [])
      else
        let s' := setLastShot now s in
        let wait := if (readyState video <? 4)%Z then [Sleep 1000] else [] in
        match est with
        | Rejected => (s', wait ++ [EstimateSinglePose])
        | Resolved poses =>
            let v := detectHit (selectedGun s) poses in
            if hitDetected v then
              (s', wait ++ [EstimateSinglePose; EmitShoot (socketId s) (damage v)]
                   ++ (if shootSoundRef r then [PlayShootSound] else []))
            else (s', wait ++ [EstimateSinglePose])
        end
  | _, _, _ => (s, [])
  end.

(** ** Session handlers (lines 47-68, 340-350) *)

(** [socket.on("connect", ...)] *)
Definition onConnect (socket_id : string) (s : State) : State * list Effect :=
  (setSocketId (Some socket_id) s, [EmitJoinGame]).

(** [socket.on("playerUpdate", (updatedPlayers) => ...)].  The handler is
    created inside the first effect, so the [gameStatus] it tests is the one
    of the render that ran the effect, [closure]; the setters act on the
    current state. *)
Definition onPlayerUpdateIn (closure : GameStatus) (updatedPlayers : list Player)
           (s : State) : State :=
  let s1 := setPlayers updatedPlayers s in
  if Nat.eqb (List.length updatedPlayers) 2 && GameStatus_eqb closure Waiting
  then setGameStatus Ready s1
  else s1.

(** The handler once the render of [s] is committed: [gameStatus] is a
    dependency of the effect, which has then run again and registered a
    handler that captured [gameStatus s]. *)
Definition onPlayerUpdate (updatedPlayers : list Player) (s : State) : State :=
  onPlayerUpdateIn (gameStatus s) updatedPlayers s.

(** [socket.on("gameOver", ({ winner }) => ...)]: [payload] is the
    [winner] field of the message, [None] when the field is null or
    missing; it is stored as it comes. *)
Definition onGameOverPayload (r : Refs) (payload : option string) (s : State)
  : State * list Effect :=
  (setWinner payload (setGameStatus Over s),
   if hitSoundRef r then [PlayHitSound] else []).

(** The handler on a message that carries the winner id [w]. *)
Definition onGameOver (r : Refs) (w : string) (s : State) : State * list Effect :=
  onGameOverPayload r (Some w) s.

(** [handleReset]: [socketRef.current?.emit("resetGame")]. *)
Definition handleReset (r : Refs) (s : State) : State * list Effect :=
  (setWinner None (setGameStatus Waiting s),
   if socketRef r then [EmitResetGame] else []).

Definition handleGunChange (gun : Gun) (s : State) : State :=
  setSelectedGun gun s.

(** ** The rendered view (lines 352-462)

    The JSX has three branches.  The elements that carry [videoRef],
    [canvasRef], [shootSoundRef], [hitSoundRef], the Shoot button and the
    gun buttons are in the "ready" branch only; the Play Again button is in
    the "over" branch only.  React sets [.current] of a ref to the element
    while it is mounted and to null when it is not. *)
Inductive View := Lobby | Arena | GameOverScreen.

Definition render (s : State) : View :=
  match gameStatus s with
  | Waiting => Lobby
  | Ready => Arena
  | Over => GameOverScreen
  end.

(** The refs once the view of [s] is committed: [video] is the mounted
    element when there is one; [socketRef] and [netRef] are not bound to
    elements and keep their value. *)
Definition commitRefs (s : State) (video : Video) (r : Refs) : Refs :=
  match render s with
  | Arena =>
      {| socketRef := socketRef r; netRef := netRef r; videoRef := Some video;
         shootSoundRef := true; hitSoundRef := true |}
  | _ =>
      {| socketRef := socketRef r; netRef := netRef r; videoRef := None;
         shootSoundRef := false; hitSoundRef := false |}
  end.

(** ** The component as a transition system *)

Inductive Event :=
| Connect (socket_id : string)
| PlayerUpdate (updatedPlayers : list Player)
| GameOver (payload : option string)
| ShootClick (now : Z) (est : Estimate)
| GunClick (gun : Gun)
| PlayAgainClick.

(** An event handled while the socket handlers in place are those of a
    render whose [gameStatus] was [closure]. *)
Definition reactIn (closure : GameStatus) (r : Refs) (e : Event) (s : State)
  : State * list Effect :=
  match e with
  | Connect i => onConnect i s
  | PlayerUpdate ps => (onPlayerUpdateIn closure ps s, [])
  | GameOver payload => onGameOverPayload r payload s
  | ShootClick now est => handleShoot r now est s
  | GunClick g => (handleGunChange g s, [])
  | PlayAgainClick => handleReset r s
  end.

(** An event handled once the render of [s] is committed. *)
Definition react (r : Refs) (e : Event) (s : State) : State * list Effect :=
  reactIn (gameStatus s) r e s.

(** The component between two renders: the state the setters have
    produced, and the [gameStatus] captured by the socket handlers in
    place, which is that of the last committed render. *)
Record Config := { captured : GameStatus; current : State }.

(** An event is delivered to the handlers in place, or React renders the
    current state and the first effect registers new handlers. *)
Inductive Step :=
| Deliver (r : Refs) (e : Event)
| Rerender.

Definition stepConfig (c : Config) (st : Step) : Config :=
  match st with
  | Deliver r e =>
      {| captured := captured c;
         current := fst (reactIn (captured c) r e (current c)) |}
  | Rerender =>
      {| captured := gameStatus (current c); current := current c |}
  end.

Definition runSteps (steps : list Step) (c : Config) : Config :=
  fold_left stepConfig steps c.

Definition initialConfig : Config :=
  {| captured := Waiting; current := initialState |}.

(** The payload of the latest [gameOver] among [steps], [before] when
    there is none. *)
Fixpoint lastGameOver (steps : list Step) (before : option (option string))
  : option (option string) :=
  match steps with
  | [] => before
  | Deliver _ (GameOver payload) :: rest => lastGameOver rest (Some payload)
  | _ :: rest => lastGameOver rest before
  end.

(** ** Zones *)

Inductive Zone := Head | Torso | LowerBody.

Definition zoneScore (poses : Pose) (z : Zone) : float :=
  match z with
  | Head => headScore poses
  | Torso => torsoScore poses
  | LowerBody => lowerBodyScore poses
  end.

(** A keypoint satisfies a zone's test: it names a part of the zone's group,
    lies in the zone's y band, and the group's collective score exceeds the
    threshold. *)
Definition zoneCond (poses : Pose) (z : Zone) (k : Keypoint) : bool :=
  match z with
  | Head => headCond poses k
  | Torso => torsoCond poses k
  | LowerBody => lowerBodyCond poses k
  end.

(** The damage and label the loop assigns in the branch of a zone. *)
Definition zoneDamage (z : Zone) : Z :=
  match z with Head => 20 | Torso => 15 | LowerBody => 10 end.

Definition zoneHitType (z : Zone) : string :=
  match z with
  | Head => "Headshot"
  | Torso => "Torso shot"
  | LowerBody => "Lower body shot"
  end.

(** The zone the loop has recorded in [hitType], if any. *)
Definition reportedZone (v : Locals) : option Zone :=
  if String.eqb (hitType v) "Headshot" then Some Head
  else if String.eqb (hitType v) "Torso shot" then Some Torso
  else if String.eqb (hitType v) "Lower body shot" then Some LowerBody
  else None.

Definition inRange (selectedGun : Gun) (k : Keypoint) : bool :=
  (distance k <? radius selectedGun)%float.

(** The branch of the [if] / [else if] chain a keypoint takes. *)
Definition keypointZone (poses : Pose) (k : Keypoint) : option Zone :=
  if headCond poses k then Some Head
  else if torsoCond poses k then Some Torso
  else if lowerBodyCond poses k then Some LowerBody
  else None.

(** A zone qualifies when some keypoint of the loop is in range and
    satisfies the zone's test. *)
Definition qualifies (selectedGun : Gun) (poses : Pose) (z : Zone) : bool :=
  existsb (fun k => inRange selectedGun k && zoneCond poses z k) (allKeypoints poses).

(** The keypoints the loop looks at, said of the pose: [k] bears one of the
    nine part names of the groups, is what [find] returns for that name (the
    first keypoint of the pose that bears it), and has a score above 0.3. *)
Definition evaluated (poses : Pose) (k : Keypoint) : Prop :=
  In (part k) (headParts ++ torsoParts)
  /\ findPart poses (part k) = Some k
  /\ gtb (score k) 0.3 = true.

(** *** The winner as the specification words it

    "The winning zone is the one with the highest competing collective
    score; ties keep the first encountered in evaluation order
    Head, Torso, LowerBody." *)
Definition specPrefer (poses : Pose) (best : option Zone) (z : Zone) : option Zone :=
  match best with
  | None => Some z
  | Some b => if gtb (zoneScore poses z) (zoneScore poses b) then Some z else Some b
  end.

Definition specWinner (selectedGun : Gun) (poses : Pose) : option Zone :=
  fold_left (specPrefer poses)
            (filter (qualifies selectedGun poses) [Head; Torso; LowerBody]) None.

(** *** Each distinct keypoint once

    Two entries of [allKeypoints] with the same part name are the same
    object (both come from [find] on that name); [distinctFrom] keeps the
    first entry of each part. *)
Fixpoint distinctFrom (seen : list string) (ks : list Keypoint) : list Keypoint :=
  match ks with
  | [] => []
  | k :: ks' =>
      if includes seen (part k) then distinctFrom seen ks'
      else k :: distinctFrom (part k :: seen) ks'
  end.

Definition distinctKeypoints (poses : Pose) : list Keypoint :=
  distinctFrom [] (allKeypoints poses).

(** A keypoint literal, for examples. *)
Definition kp (p : string) (px py sc : float) : Keypoint :=
  {| part := p; position := {| x := px; y := py |}; score := sc |}.

(** ** Definitions used by the statements *)

(** The invariant of the data model: "phase = Ready only while
    players.length == 2; phase = Over implies winner is set". *)
Definition specInvariant (s : State) : Prop :=
  (gameStatus s = Ready -> List.length (players s) = 2%nat)
  /\ (gameStatus s = Over -> winner s <> None).


(** The zone a keypoint competes for: the branch it takes when it is in range. *)
Definition candidate (selectedGun : Gun) (poses : Pose) (k : Keypoint) : option Zone :=
  if inRange selectedGun k then keypointZone poses k else None.

(** The conditional assignment in the branch of zone [z]. *)
Definition award (poses : Pose) (z : Zone) (v : Locals) : Locals :=
  improve (zoneScore poses z) (zoneDamage z) (zoneHitType z) v.

(** What the loop has recorded in [v] after the keypoints [l]: nothing,
    when no keypoint of [l] competes; otherwise the zone [w] of a keypoint
    [k] of [l], such that every competing keypoint before [k] has a zone of
    smaller score and no competing keypoint after [k] has a zone of greater
    score. *)
Inductive Recorded (selectedGun : Gun) (poses : Pose)
          (l : list Keypoint) (v : Locals) : Prop :=
| NoZone :
    (forall k, In k l -> candidate selectedGun poses k = None) ->
    damage v = 0%Z -> bestScore v = 0%float -> hitType v = "" ->
    Recorded selectedGun poses l v
| Winner w l1 k l2 :
    l = l1 ++ k :: l2 ->
    candidate selectedGun poses k = Some w ->
    bestScore v = zoneScore poses w ->
    damage v = zoneDamage w ->
    hitType v = zoneHitType w ->
    (forall k' z, In k' l1 -> candidate selectedGun poses k' = Some z ->
                  gtb (zoneScore poses w) (zoneScore poses z) = true) ->
    (forall k' z, In k' l2 -> candidate selectedGun poses k' = Some z ->
                  gtb (zoneScore poses z) (zoneScore poses w) = false) ->
    Recorded selectedGun poses l v.

(** A keypoint is settled in [v] when another iteration on it would
    change nothing: it is out of range, or [hitDetected] is set and the
    score of its zone does not exceed [bestScore]. *)
Definition settled (selectedGun : Gun) (poses : Pose) (k : Keypoint) (v : Locals) : Prop :=
  inRange selectedGun k = false
  \/ (hitDetected v = true
      /\ forall z, candidate selectedGun poses k = Some z ->
                   gtb (zoneScore poses z) (bestScore v) = false).

(** ** Example data *)

Definition alice : Player := {| id := "alice"; health := 100; ready := true |}.
Definition bob : Player := {| id := "bob"; health := 100; ready := true |}.

Definition fullRefs (video : Video) : Refs :=
  {| socketRef := true; netRef := true; videoRef := Some video;
     shootSoundRef := true; hitSoundRef := true |}.

Definition loaded : Video := {| readyState := 4 |}.

(** A session of two that has shrunk to one. *)
Definition shrunkSession : State :=
  onPlayerUpdate [alice] (onPlayerUpdate [alice; bob] initialState).

(** A socket that delivers events only. *)
Definition relay : Refs :=
  {| socketRef := true; netRef := false; videoRef := None;
     shootSoundRef := false; hitSoundRef := false |}.

(** Two players join, the arena is rendered, one leaves. *)
Definition shrinkingRun : list Step :=
  [Deliver relay (PlayerUpdate [alice; bob]); Rerender;
   Deliver relay (PlayerUpdate [alice])].

(** Two players join, the arena is rendered, the game ends. *)
Definition finishingRun : list Step :=
  [Deliver relay (PlayerUpdate [alice; bob]); Rerender;
   Deliver relay (GameOver (Some "bob"))].

(** A [gameOver] and a roster of two arrive before the lobby is rendered
    again: the second handler still holds the waiting phase. *)
Definition staleRun : list Step :=
  [Deliver relay (GameOver (Some "bob"));
   Deliver relay (PlayerUpdate [alice; bob])].

(** A connected client in a session of two. *)
Definition connected : State :=
  onPlayerUpdate [alice; bob] (fst (onConnect "alice" initialState)).

(** A pose with the shoulders unseen and the two hips equally confident:
    the left hip lies in the lower band, the right hip in the torso band. *)
Definition tiePose : Pose :=
  {| keypoints := [kp "leftHip" 320 410 0.8; kp "rightHip" 320 300 0.8] |}.

(** The nose alone, at the centre of the frame, with confidence 0.4. *)
Definition faintPose : Pose := {| keypoints := [kp "nose" 320 240 0.4] |}.

(** A left knee at the centre of the frame. *)
Definition kneePose : Pose := {| keypoints := [kp "leftKnee" 320 240 0.9] |}.

(** A faint nose near the centre and a confident left eye far from it. *)
Definition dimNosePose : Pose :=
  {| keypoints := [kp "nose" 320 200 0.2; kp "leftEye" 0 0 0.9] |}.

(** The nose alone, near the centre: in range of every weapon. *)
Definition facePose : Pose := {| keypoints := [kp "nose" 330 200 0.9] |}.

(** ** Video devices and the camera effect (lines 31-38, 79-88, 401-411) *)

(** A [MediaDeviceInfo], as far as the component reads it. *)
Record MediaDeviceInfo := { kind : string; deviceId : string; label : string }.

(** [devices.filter((device) => device.kind === "videoinput")] *)
Definition videoInputs (devices : list MediaDeviceInfo) : list MediaDeviceInfo :=
  filter (fun device => String.eqb (kind device) "videoinput") devices.

(** [videoInputs[0]?.deviceId || null]: the empty string is falsy. *)
Definition firstDeviceId (inputs : list MediaDeviceInfo) : option string :=
  match inputs with
  | [] => None
  | device :: _ => if String.eqb (deviceId device) "" then None else Some (deviceId device)
  end.

(** The value given to [setSelectedDeviceId] once the devices are listed. *)
Definition initialDeviceId (devices : list MediaDeviceInfo) : option string :=
  firstDeviceId (videoInputs devices).

(** Truthiness of a [string | null]. *)
Definition truthy (o : option string) : bool :=
  match o with
  | Some str => negb (String.eqb str "")
  | None => false
  end.

(** The second effect goes past its guard
    [gameStatus === "waiting" || !videoRef.current || !canvasRef.current || !selectedDeviceId]
    and asks for the camera; [video] and [canvas] say whether the refs are
    non-null. *)
Definition cameraStarts (s : State) (video canvas : bool)
           (selectedDeviceId : option string) : bool :=
  negb (GameStatus_eqb (gameStatus s) Waiting
        || negb video || negb canvas || negb (truthy selectedDeviceId)).

(** The canvas element is in the "ready" branch of the JSX, beside the video. *)
Definition mountsCanvas (v : View) : bool :=
  match v with Arena => true | _ => false end.

Definition isSome {A : Type} (o : option A) : bool :=
  match o with Some _ => true | None => false end.

(** ** What the JSX shows (lines 352-462)

    The text and the class names that depend on the state; layout classes
    that do not are left out. *)

(** [a === b] on two [string | null] values. *)
Definition strictEq (a b : option string) : bool :=
  match a, b with
  | Some u, Some v => String.eqb u v
  | None, None => true
  | _, _ => false
  end.

(** A lobby row: the class chosen by [player.ready], [Player ${id.slice(0, 4)}]
    and the health.  Player ids are socket ids, made of ASCII characters, so
    the first four characters are the first four UTF-16 units. *)
Definition lobbyRow (player : Player) : string * string * Z :=
  (if ready player then "bg-green-500" else "bg-red-500",
   ("Player " ++ substring 0 4 (id player))%string,
   health player).

(** An entry of the bar at the top of the arena:
    [player.id === socketId ? "You" : "Opponent"] and the health. *)
Definition hudEntry (s : State) (player : Player) : string * Z :=
  (if strictEq (Some (id player)) (socketId s) then "You" else "Opponent",
   health player).

(** An entry of the bar that reads "You". *)
Definition isYou (entry : string * Z) : bool := String.eqb (fst entry) "You".

(** The class that marks the selected gun on a gun button. *)
Definition gunButton (s : State) (gun : Gun) (active : string) : string :=
  if Gun_eqb (selectedGun s) gun then active else "bg-gray-700".

Inductive Page :=
| LobbyPage (rows : list (string * string * Z)) (waitingForOpponent : bool)
            (bannerClass bannerText : string)
| ArenaPage (hud : list (string * Z)) (sniperClass pistolClass shotgunClass : string)
| GameOverPage (winnerText : string).

Definition renderPage (s : State) : Page :=
  if GameStatus_eqb (gameStatus s) Waiting then
    LobbyPage (map lobbyRow (players s))
              (Nat.ltb (List.length (players s)) 2)
              (if GameStatus_eqb (gameStatus s) Ready
               then "bg-green-500" else "bg-orange-500")
              (if GameStatus_eqb (gameStatus s) Waiting
               then "Waiting for 2 Players" else "Game Ready!")
  else if GameStatus_eqb (gameStatus s) Ready then
    ArenaPage (map (hudEntry s) (players s))
              (gunButton s sniper "bg-green-500")
              (gunButton s pistol "bg-red-500")
              (gunButton s shotgun "bg-yellow-500")
  else
    GameOverPage (if strictEq (winner s) (socketId s) then "You" else "Opponent").

(** ** Runs of events *)

(** The state after a list of events, each handled with the refs it finds. *)
Fixpoint runEvents (es : list (Refs * Event)) (s : State) : State :=
  match es with
  | [] => s
  | (r, e) :: es' => runEvents es' (fst (react r e s))
  end.

(** The socket id of the latest [connect] event of a run, [before] when
    the run has none. *)
Fixpoint lastConnect (es : list (Refs * Event)) (before : option string)
  : option string :=
  match es with
  | [] => before
  | (_, Connect socket_id) :: es' => lastConnect es' (Some socket_id)
  | _ :: es' => lastConnect es' before
  end.

(** Example devices. *)
Definition webcam : MediaDeviceInfo :=
  {| kind := "videoinput"; deviceId := "cam-0001"; label := "" |}.
Definition microphone : MediaDeviceInfo :=
  {| kind := "audioinput"; deviceId := "mic-0001"; label := "Built-in microphone" |}.

(** ** Order facts on binary64 comparisons

    The strict comparison of the source ([a > b], [a < b]) is IEEE [ltb].
    The loop relies on it being a strict order on the numbers that are not
    NaN; the facts are derived from the specification of [ltb] and [leb]
    on [spec_float]. *)
Module FloatOrder.

Local Open Scope float_scope.

Lemma ltb_cmp x y :
  (x <? y) = true <-> SFcompare (Prim2SF x) (Prim2SF y) = Some Lt.
Proof.
  rewrite ltb_spec. unfold SFltb.
  destruct (SFcompare _ _) as [[]|]; split; congruence.
Qed.

Lemma leb_cmp x y :
  (x <=? y) = true <->
  SFcompare (Prim2SF x) (Prim2SF y) = Some Lt
  \/ SFcompare (Prim2SF x) (Prim2SF y) = Some Eq.
Proof.
  rewrite leb_spec. unfold SFleb.
  destruct (SFcompare _ _) as [[]|]; split; intros H;
    solve [ auto | discriminate | destruct H; discriminate ].
Qed.

Ltac cmp_cases :=
  repeat match goal with
         | H : context [Z.compare ?a ?b] |- _ => destruct (Z.compare_spec a b)
         | |- context [Z.compare ?a ?b] => destruct (Z.compare_spec a b)
         | H : context [Pos.compare_cont Eq ?a ?b] |- _ =>
             change (Pos.compare_cont Eq a b) with (Pos.compare a b) in *;
             destruct (Pos.compare_spec a b)
         | |- context [Pos.compare_cont Eq ?a ?b] =>
             change (Pos.compare_cont Eq a b) with (Pos.compare a b) in *;
             destruct (Pos.compare_spec a b)
         end.

Ltac sf_crush :=
  cbn in *; cmp_cases; cbn in *; subst;
  try congruence; try discriminate; try lia; auto.

Lemma SFcompare_Lt_trans a b c :
  SFcompare a b = Some Lt -> SFcompare b c = Some Lt -> SFcompare a c = Some Lt.
Proof.
  destruct a as [[]|[]| |[] ma ea], b as [[]|[]| |[] mb eb],
        c as [[]|[]| |[] mc ec]; intros H1 H2; sf_crush.
Qed.

Lemma SFcompare_Eq_Lt a b c :
  SFcompare a b = Some Eq -> SFcompare b c = Some Lt -> SFcompare a c = Some Lt.
Proof.
  destruct a as [[]|[]| |[] ma ea], b as [[]|[]| |[] mb eb],
        c as [[]|[]| |[] mc ec]; intros H1 H2; sf_crush.
Qed.

Lemma SFcompare_Lt_irrefl a : SFcompare a a <> Some Lt.
Proof.
  destruct a as [[]|[]| |[] ma ea]; intros H; sf_crush.
Qed.

(** [<] is irreflexive, also at NaN. *)
Lemma ltb_irrefl x : (x <? x) = false.
Proof.
  destruct (x <? x) eqn:E; [|reflexivity].
  apply ltb_cmp in E. now apply SFcompare_Lt_irrefl in E.
Qed.

Lemma ltb_trans x y z : (x <? y) = true -> (y <? z) = true -> (x <? z) = true.
Proof.
  rewrite !ltb_cmp. apply SFcompare_Lt_trans.
Qed.

Lemma ltb_asym x y : (x <? y) = true -> (y <? x) = false.
Proof.
  intros H. destruct (y <? x) eqn:E; [|reflexivity].
  pose proof (ltb_trans _ _ _ H E) as C. now rewrite ltb_irrefl in C.
Qed.

(** Once [z] fails to exceed [b], it fails to exceed anything above [b]. *)
Lemma ltb_absorb z b s :
  (b <? z) = false -> (b <? s) = true -> (s <? z) = false.
Proof.
  intros Hbz Hbs.
  destruct (s <? z) eqn:E; [|reflexivity].
  pose proof (ltb_trans _ _ _ Hbs E) as C. congruence.
Qed.

Lemma SFcompare_below t z b w :
  SFcompare t z = Some Lt -> SFcompare b z <> Some Lt ->
  SFcompare b w = Some Lt -> SFcompare z w = Some Lt.
Proof.
  intros Ht Hbz Hbw.
  assert (z <> S754_nan) as Hz.
  { intros ->. destruct t as [[]|[]| |[] mt et]; discriminate Ht. }
  clear Ht.
  destruct z as [[]|[]| |[] mz ez], b as [[]|[]| |[] mb eb],
        w as [[]|[]| |[] mw ew]; try congruence; sf_crush.
Qed.

(** For a number [z] (it exceeds some [t]): [z <= b < w] gives [z < w]. *)
Lemma ltb_below t z b w :
  (t <? z) = true -> (b <? z) = false -> (b <? w) = true -> (z <? w) = true.
Proof.
  intros Ht Hbz Hbw. apply ltb_cmp in Ht. apply ltb_cmp in Hbw.
  apply ltb_cmp.
  apply (SFcompare_below (Prim2SF t) _ (Prim2SF b)); auto.
  intros C. apply ltb_cmp in C. congruence.
Qed.

(** [a < b] and [b <= a] exclude each other. *)
Lemma ltb_not_leb a b : (a <? b) = true -> (b <=? a) = false.
Proof.
  intros H. destruct (b <=? a) eqn:E; [|reflexivity].
  apply ltb_cmp in H. apply leb_cmp in E.
  destruct E as [E|E].
  - pose proof (SFcompare_Lt_trans _ _ _ H E) as C.
    now apply SFcompare_Lt_irrefl in C.
  - pose proof (SFcompare_Eq_Lt _ _ _ E H) as C.
    now apply SFcompare_Lt_irrefl in C.
Qed.

End FloatOrder.

(** ** Session state machine *)
Module Session.

(** [handleShoot] writes [lastShot] and nothing else. *)
Lemma handleShoot_state r now est s :
  fst (handleShoot r now est s) = s
  \/ fst (handleShoot r now est s) = setLastShot now s.
Proof.
  unfold handleShoot.
  destruct (socketRef r), (netRef r), (videoRef r); auto.
  destruct (now - lastShot s <? 500)%Z; auto.
  destruct est as [poses|]; auto.
  destruct (hitDetected _); auto.
Qed.

Lemma runSteps_last steps st c :
  runSteps (steps ++ [st]) c = stepConfig (runSteps steps c) st.
Proof. unfold runSteps. now rewrite fold_left_app. Qed.

(** No handler but that of [gameOver] makes the phase Over. *)
Lemma reactIn_over closure r e s :
  gameStatus (fst (reactIn closure r e s)) = Over ->
  (exists payload, e = GameOver payload
                   /\ winner (fst (reactIn closure r e s)) = payload)
  \/ ((forall payload, e <> GameOver payload)
      /\ gameStatus s = Over
      /\ winner (fst (reactIn closure r e s)) = winner s).
Proof.
destruct e as [i|ps|payload|now est|g|]; cbn [reactIn fst]; intros H.
- right. repeat split; auto. discriminate.
- right. unfold onPlayerUpdateIn in *.
  destruct (Nat.eqb _ 2 && GameStatus_eqb closure Waiting); cbn in *;
    [discriminate|]. repeat split; auto. discriminate.
- left. now exists payload.
- right. destruct (handleShoot_state r now est s) as [E|E]; rewrite E in *;
    repeat split; auto; discriminate.
- right. repeat split; auto. discriminate.
- discriminate H.
Qed.

Lemma over_holds_last_payload steps : forall c before,
  (gameStatus (current c) = Over -> before = Some (winner (current c))) ->
  gameStatus (current (runSteps steps c)) = Over ->
  lastGameOver steps before = Some (winner (current (runSteps steps c))).
Proof.
induction steps as [|st steps IH]; intros c before Hc Hover.
- cbn in *. auto.
- change (runSteps (st :: steps) c) with (runSteps steps (stepConfig c st)) in *.
  destruct st as [r e|].
  + destruct e as [i|ps|payload|now est|g|];
      try (cbn [lastGameOver]; apply IH; [|exact Hover];
           cbn [stepConfig current]; intros H;
           apply reactIn_over in H as [[p [Ee _]]|[_ [Hs Hw]]];
           [discriminate Ee|rewrite Hw; auto]).
    cbn [lastGameOver]. apply IH; [|exact Hover]. reflexivity.
  + cbn [lastGameOver]. apply IH; [|exact Hover]. exact Hc.
Qed.

(** The one way into Ready. *)
Lemma enters_ready closure r e s :
  gameStatus s <> Ready ->
  gameStatus (fst (reactIn closure r e s)) = Ready ->
  exists ps, e = PlayerUpdate ps /\ closure = Waiting
             /\ List.length ps = 2%nat
             /\ players (fst (reactIn closure r e s)) = ps.
Proof.
intros Hn Hr. destruct e as [i|ps|payload|now est|g|]; cbn [reactIn fst] in *.
- contradiction.
- exists ps. unfold onPlayerUpdateIn in *.
  destruct (Nat.eqb_spec (List.length ps) 2) as [El|El]; [|contradiction].
  destruct closure; cbn in *; try contradiction. auto.
- discriminate.
- destruct (handleShoot_state r now est s) as [E|E]; rewrite E in Hr;
    contradiction.
- contradiction.
- discriminate.
Qed.

Lemma update_in_ready closure ps s :
  gameStatus s = Ready ->
  gameStatus (onPlayerUpdateIn closure ps s) = Ready
  /\ players (onPlayerUpdateIn closure ps s) = ps.
Proof.
intros H. unfold onPlayerUpdateIn.
destruct (Nat.eqb _ 2 && GameStatus_eqb closure Waiting); cbn; auto.
Qed.

(** C1, as stated, fails: after a roster of two has made the session
    Ready and the arena is rendered, a roster of one is stored and the
    phase stays Ready. *)
Lemma ready_roster_counterexample :
  current (runSteps shrinkingRun initialConfig) = shrunkSession
  /\ gameStatus shrunkSession = Ready
  /\ List.length (players shrunkSession) = 1%nat
  /\ ~ specInvariant shrunkSession.
Proof.
split; [reflexivity|split; [reflexivity|split; [reflexivity|]]].
intros [H _]. specialize (H eq_refl). discriminate H.
Qed.

(** C1, amended.  In every configuration [c] reached from the initial one
    by events and renders: if the phase is Over, the winner is the payload
    of the latest [gameOver] (set when that message carried an id); an
    event that moves the session into Ready is a [playerUpdate] of exactly
    two players, handled by a handler that captured the waiting phase, and
    it leaves that roster of two; and a [playerUpdate] delivered while the
    phase is Ready stores the delivered list, whatever its length, and
    leaves the phase Ready. *)
Theorem session_invariant steps c :
  c = runSteps steps initialConfig ->
  (gameStatus (current c) = Over ->
   lastGameOver steps None = Some (winner (current c)))
  /\ (forall r e,
         gameStatus (current c) <> Ready ->
         gameStatus (current (stepConfig c (Deliver r e))) = Ready ->
         exists ps, e = PlayerUpdate ps /\ captured c = Waiting
                    /\ List.length ps = 2%nat
                    /\ players (current (stepConfig c (Deliver r e))) = ps)
  /\ (forall r ps,
         gameStatus (current c) = Ready ->
         gameStatus (current (stepConfig c (Deliver r (PlayerUpdate ps)))) = Ready
         /\ players (current (stepConfig c (Deliver r (PlayerUpdate ps)))) = ps).
Proof.
intros ->. split; [|split].
- apply over_holds_last_payload. discriminate.
- intros r e. apply enters_ready.
- intros r ps. apply update_in_ready.
Qed.

(** The theorem at work: in the Over configuration of [finishingRun] the
    winner is the delivered "bob"; from the initial configuration a roster
    of two enters Ready; in the Ready configuration the roster of one is
    stored and the phase stays Ready. *)
Lemma session_invariant_witness :
  lastGameOver finishingRun None
  = Some (winner (current (runSteps finishingRun initialConfig)))
  /\ (exists ps,
         PlayerUpdate [alice; bob] = PlayerUpdate ps
         /\ captured initialConfig = Waiting
         /\ List.length ps = 2%nat
         /\ players (current (stepConfig initialConfig
                                         (Deliver relay (PlayerUpdate [alice; bob])))) = ps)
  /\ (gameStatus
        (current (stepConfig (runSteps [Deliver relay (PlayerUpdate [alice; bob]); Rerender]
                                       initialConfig)
                             (Deliver relay (PlayerUpdate [alice])))) = Ready
      /\ players
           (current (stepConfig (runSteps [Deliver relay (PlayerUpdate [alice; bob]); Rerender]
                                          initialConfig)
                                (Deliver relay (PlayerUpdate [alice])))) = [alice]).
Proof.
split; [|split].
- apply (session_invariant finishingRun _ eq_refl). reflexivity.
- apply (proj1 (proj2 (session_invariant [] initialConfig eq_refl))
               relay (PlayerUpdate [alice; bob]));
    [discriminate|reflexivity].
- apply (proj2 (proj2 (session_invariant
                         [Deliver relay (PlayerUpdate [alice; bob]); Rerender] _ eq_refl))
               relay [alice]).
  reflexivity.
Defined.

(** C5.  A roster update delivered in Waiting: a list of exactly two
    players (distinct or not: only the length is read) makes the phase
    Ready, a list of fewer than two leaves it Waiting; either way the
    roster becomes the delivered list and no other cell changes. *)
Theorem playerUpdate_in_waiting s ps :
  gameStatus s = Waiting ->
  (List.length ps = 2%nat -> gameStatus (onPlayerUpdate ps s) = Ready)
  /\ ((List.length ps < 2)%nat -> gameStatus (onPlayerUpdate ps s) = Waiting)
  /\ players (onPlayerUpdate ps s) = ps
  /\ socketId (onPlayerUpdate ps s) = socketId s
  /\ winner (onPlayerUpdate ps s) = winner s
  /\ lastShot (onPlayerUpdate ps s) = lastShot s
  /\ selectedGun (onPlayerUpdate ps s) = selectedGun s.
Proof.
  intros Hw. unfold onPlayerUpdate, onPlayerUpdateIn. rewrite Hw. cbn.
  destruct (Nat.eqb_spec (List.length ps) 2) as [E|E]; cbn;
    repeat split; auto; intros; try lia; congruence.
Qed.

Lemma playerUpdate_in_waiting_witness :
  gameStatus (onPlayerUpdate [alice; bob] initialState) = Ready
  /\ gameStatus (onPlayerUpdate [alice] initialState) = Waiting
  /\ players (onPlayerUpdate [alice; bob] initialState) = [alice; bob].
Proof.
  split; [|split].
  - apply (playerUpdate_in_waiting initialState [alice; bob]); reflexivity.
  - apply (playerUpdate_in_waiting initialState [alice]); [reflexivity|cbn; lia].
  - apply (playerUpdate_in_waiting initialState [alice; bob]); reflexivity.
Defined.

(** C6.  A [gameOver] event delivered in any phase makes the phase Over
    and records the delivered id as the winner. *)
Theorem gameOver_any_phase r w s :
  gameStatus (fst (onGameOver r w s)) = Over
  /\ winner (fst (onGameOver r w s)) = Some w.
Proof. split; reflexivity. Qed.

End Session.

(** ** The guards of the shot operation *)
Module Shot.


Lemma handleShoot_cooldown r now est s :
  (now - lastShot s < 500)%Z -> handleShoot r now est s = (s, []).
Proof.
  intros H. unfold handleShoot.
  destruct (socketRef r), (netRef r), (videoRef r); try reflexivity.
  apply Z.ltb_lt in H. now rewrite H.
Qed.

Lemma handleShoot_passed r video now est s :
  socketRef r = true -> netRef r = true -> videoRef r = Some video ->
  (500 <= now - lastShot s)%Z ->
  fst (handleShoot r now est s) = setLastShot now s.
Proof.
  intros H1 H2 H3 H. unfold handleShoot. rewrite H1, H2, H3.
  destruct (Z.ltb_spec (now - lastShot s) 500); [lia|].
  destruct est as [poses|]; [|reflexivity].
  now destruct (hitDetected _).
Qed.



(** C4.  When a first call at [t1] has passed the guards and the cooldown,
    a second call at [t2] with [t2 - t1 < 500] does nothing: no effect is
    performed (no pose estimation, no relay message) and the state,
    [lastShot] included, is the one the first call left. *)
Theorem cooldown_suppresses r1 video t1 e1 r2 t2 e2 s :
  socketRef r1 = true -> netRef r1 = true -> videoRef r1 = Some video ->
  (500 <= t1 - lastShot s)%Z ->
  (t2 - t1 < 500)%Z ->
  handleShoot r2 t2 e2 (fst (handleShoot r1 t1 e1 s))
  = (fst (handleShoot r1 t1 e1 s), []).
Proof.
  intros H1 H2 H3 Hpass Hclose.
  rewrite (handleShoot_passed r1 video t1 e1 s H1 H2 H3 Hpass).
  apply handleShoot_cooldown. cbn. exact Hclose.
Qed.

Lemma cooldown_suppresses_witness :
  handleShoot (fullRefs loaded) 1300 (Resolved {| keypoints := [kp "nose" 320 100 0.9] |})
              (fst (handleShoot (fullRefs loaded) 1000 Rejected initialState))
  = (fst (handleShoot (fullRefs loaded) 1000 Rejected initialState), []).
Proof.
  apply (cooldown_suppresses (fullRefs loaded) loaded 1000 Rejected
                             (fullRefs loaded) 1300 _ initialState);
    solve [reflexivity | cbn; lia].
Defined.



End Shot.

(** ** The hit-scoring loop *)
Module Hit.

Import FloatOrder.

(** *** The loop on small poses *)

(** The bands: [480 * 0.5] is 240 and [480 * 0.85] rounds to 408. *)
Example zone_bounds : headZoneMax = 240%float /\ torsoZoneMax = 408%float.
Proof. split; reflexivity. Qed.

(** A confident nose just above the centre is a head shot with any weapon. *)
Example nose_is_headshot :
  forall g, detectHit g facePose
            = {| hitDetected := true; damage := 20;
                 bestScore := 0.9; hitType := "Headshot" |}.
Proof. intros []; vm_compute; reflexivity. Qed.

(** A left hip low in the frame is a lower-body shot; the shotgun reaches
    it, the pistol does not (its distance from the centre is 210). *)
Example low_hip_is_lower_body :
  detectHit shotgun {| keypoints := [kp "leftHip" 320 450 0.6] |}
  = {| hitDetected := true; damage := 10;
       bestScore := 0.6; hitType := "Lower body shot" |}
  /\ detectHit pistol {| keypoints := [kp "leftHip" 320 450 0.6] |} = initialLocals.
Proof. split; vm_compute; reflexivity. Qed.

(** A part outside the three groups is not looked at. *)
Example knee_is_ignored :
  detectHit shotgun {| keypoints := [kp "leftKnee" 320 240 0.9] |} = initialLocals.
Proof. vm_compute. reflexivity. Qed.

(** *** Part names and bands *)

Ltac part_cases H :=
  unfold includes, headParts, torsoParts, lowerBodyParts in H;
  cbn [existsb] in H;
  repeat (apply orb_true_iff in H; destruct H as [H|H]);
  try discriminate H;
  apply String.eqb_eq in H; subst.

Lemma head_not_torso p :
  includes headParts p = true -> includes torsoParts p = false.
Proof. intros H. part_cases H; reflexivity. Qed.

Lemma lower_not_head p :
  includes lowerBodyParts p = true -> includes headParts p = false.
Proof. intros H. part_cases H; reflexivity. Qed.

Section Loop.

Variable selectedGun : Gun.
Variable poses : Pose.

Local Abbreviation score_of := (zoneScore poses).
Local Abbreviation body := (loopBody selectedGun poses).
Local Abbreviation run := (runLoop selectedGun poses).
Local Abbreviation cand := (candidate selectedGun poses).
Local Abbreviation Rec := (Recorded selectedGun poses).

(** The three conditions exclude one another, so the branch taken is
    the zone whose test the keypoint satisfies. *)
Lemma keypointZone_cond k z :
  keypointZone poses k = Some z <-> zoneCond poses z k = true.
Proof.
  unfold keypointZone. split.
  - destruct (headCond poses k) eqn:Eh; [intros [= <-]; exact Eh|].
    destruct (torsoCond poses k) eqn:Et; [intros [= <-]; exact Et|].
    destruct (lowerBodyCond poses k) eqn:El; [intros [= <-]; exact El|].
    discriminate.
  - destruct z; cbn [zoneCond]; intros H.
    + now rewrite H.
    + assert (headCond poses k = false) as ->.
      { unfold torsoCond, headCond in *.
        apply andb_true_iff in H as [H _]. apply andb_true_iff in H as [H _].
        apply andb_true_iff in H as [H _].
        destruct (includes headParts (part k)) eqn:E; [|reflexivity].
        apply head_not_torso in E. congruence. }
      now rewrite H.
    + assert (headCond poses k = false) as ->.
      { unfold lowerBodyCond, headCond in *.
        apply andb_true_iff in H as [H _]. apply andb_true_iff in H as [H _].
        now rewrite (lower_not_head _ H). }
      assert (torsoCond poses k = false) as ->.
      { unfold lowerBodyCond, torsoCond, geb in *.
        apply andb_true_iff in H as [H _]. apply andb_true_iff in H as [_ H].
        destruct (adjustedY k <? torsoZoneMax)%float eqn:E.
        - apply ltb_not_leb in E. congruence.
        - now rewrite andb_false_r. }
      now rewrite H.
Qed.

Lemma zoneCond_threshold k z :
  zoneCond poses z k = true -> gtb (score_of z) threshold = true.
Proof.
  destruct z; cbn [zoneCond zoneScore];
    unfold headCond, torsoCond, lowerBodyCond; intros H;
    apply andb_true_iff in H as [_ H]; exact H.
Qed.

(** A score above the threshold is above the initial [bestScore]. *)
Lemma above_threshold_positive sc :
  gtb sc threshold = true -> gtb sc 0 = true.
Proof.
  unfold gtb. apply ltb_trans. reflexivity.
Qed.

Lemma candidate_qualifies k z :
  cand k = Some z <->
  inRange selectedGun k = true /\ zoneCond poses z k = true.
Proof.
  unfold candidate. rewrite <- keypointZone_cond.
  destruct (inRange selectedGun k); split;
    solve [ intuition congruence | intros [? ?]; congruence ].
Qed.

Lemma qualifies_candidate z :
  qualifies selectedGun poses z = true <->
  exists k, In k (allKeypoints poses) /\ cand k = Some z.
Proof.
  unfold qualifies. rewrite existsb_exists.
  split; intros [k [Hin H]]; exists k; split; auto.
  - apply candidate_qualifies. now apply andb_true_iff in H.
  - apply andb_true_iff. now apply candidate_qualifies.
Qed.

(** The loop body, by the zone of the branch. *)
Lemma loopBody_candidate v k :
  body v k =
  if inRange selectedGun k then
    setHitDetected (match cand k with Some z => award poses z v | None => v end)
  else v.
Proof.
  unfold loopBody, candidate, inRange, keypointZone, award.
  destruct (distance k <? radius selectedGun)%float; [|reflexivity].
  destruct (headCond poses k); [reflexivity|].
  destruct (torsoCond poses k); [reflexivity|].
  destruct (lowerBodyCond poses k); reflexivity.
Qed.

Lemma run_last l k v : run (l ++ [k]) v = body (run l v) k.
Proof. unfold runLoop. now rewrite fold_left_app. Qed.

Lemma run_app l1 l2 v : run (l1 ++ l2) v = run l2 (run l1 v).
Proof. unfold runLoop. now rewrite fold_left_app. Qed.

Lemma candidate_number k z :
  cand k = Some z -> gtb (score_of z) threshold = true.
Proof.
  intros H. apply candidate_qualifies in H as [_ H].
  now apply zoneCond_threshold in H.
Qed.

Lemma Recorded_setHitDetected l v :
  Rec l v -> Rec l (setHitDetected v).
Proof.
  intros [Hn Hd Hb Ht | w l1 k l2 El Hk Hb Hd Ht H1 H2].
  - now apply NoZone.
  - now apply (Winner _ _ l _ w l1 k l2).
Qed.

Lemma Recorded_step l v k :
  Rec l v -> Rec (l ++ [k]) (body v k).
Proof.
  intros HR. rewrite loopBody_candidate.
  destruct (inRange selectedGun k) eqn:Er.
  2:{ assert (cand k = None) as Hc by (unfold candidate; now rewrite Er).
      destruct HR as [Hn Hd Hb Ht | w l1 k0 l2 El Hk Hb Hd Ht H1 H2].
      - apply NoZone; auto.
        intros k' Hin. apply in_app_or in Hin as [Hin|[<-|[]]]; auto.
      - apply (Winner _ _ _ _ w l1 k0 (l2 ++ [k])); auto.
        + rewrite El, <- app_assoc. reflexivity.
        + intros k' z Hin Hz. apply in_app_or in Hin as [Hin|[<-|[]]]; eauto.
          congruence. }
  apply Recorded_setHitDetected.
  destruct (cand k) as [z|] eqn:Hc.
  2:{ destruct HR as [Hn Hd Hb Ht | w l1 k0 l2 El Hk Hb Hd Ht H1 H2].
      - apply NoZone; auto.
        intros k' Hin. apply in_app_or in Hin as [Hin|[<-|[]]]; auto.
      - apply (Winner _ _ _ _ w l1 k0 (l2 ++ [k])); auto.
        + rewrite El, <- app_assoc. reflexivity.
        + intros k' z Hin Hz. apply in_app_or in Hin as [Hin|[<-|[]]]; eauto.
          congruence. }
  pose proof (candidate_number _ _ Hc) as Hth.
  unfold award, improve.
  destruct HR as [Hn Hd Hb Ht | w l1 k0 l2 El Hk Hb Hd Ht H1 H2].
  - rewrite Hb, (above_threshold_positive _ Hth).
    apply (Winner _ _ _ _ z l k []); auto.
    + intros k' z' Hin Hz. rewrite (Hn _ Hin) in Hz. discriminate.
    + intros k' z' [].
  - destruct (gtb (score_of z) (bestScore v)) eqn:Eg.
    + rewrite Hb in Eg.
      apply (Winner _ _ _ _ z l k []); auto.
      * intros k' z' Hin Hz. subst l.
        apply in_app_or in Hin as [Hin|[<-|Hin]].
        -- unfold gtb in *. eapply ltb_trans; [|exact Eg]. eapply H1; eauto.
        -- assert (z' = w) by congruence. subst z'. exact Eg.
        -- pose proof (H2 _ _ Hin Hz) as Hle.
           pose proof (candidate_number _ _ Hz) as Hz'.
           unfold gtb in *. eapply ltb_below; eauto.
      * intros k' z' [].
    + rewrite Hb in Eg.
      apply (Winner _ _ _ _ w l1 k0 (l2 ++ [k])); auto.
      * rewrite El, <- app_assoc. reflexivity.
      * intros k' z' Hin Hz. apply in_app_or in Hin as [Hin|[<-|[]]]; eauto.
        congruence.
Qed.

Lemma Recorded_run l : Rec l (run l initialLocals).
Proof.
  induction l as [|k l IH] using rev_ind.
  - apply NoZone; auto. intros k [].
  - rewrite run_last. now apply Recorded_step.
Qed.

Lemma hitDetected_run l v :
  hitDetected (run l v) = hitDetected v || existsb (inRange selectedGun) l.
Proof.
  revert v. induction l as [|k l IH]; intros v.
  - cbn. now rewrite orb_false_r.
  - change (run (k :: l) v) with (run l (body v k)).
    rewrite IH, loopBody_candidate. cbn [existsb].
    destruct (inRange selectedGun k); cbn [hitDetected setHitDetected orb].
    + now rewrite orb_true_r.
    + reflexivity.
Qed.

End Loop.

(** *** The keypoints of the loop *)

Lemma In_defined k l : In k (defined l) <-> In (Some k) l.
Proof.
induction l as [|[k'|] l IH]; cbn.
- tauto.
- rewrite IH. split; intros [H|H]; auto; left; congruence.
- rewrite IH. split; [auto|]. intros [H|H]; [discriminate|auto].
Qed.

Lemma groupKeypoints_confident parts poses k :
  In k (groupKeypoints parts poses) -> gtb (score k) 0.3 = true.
Proof.
unfold groupKeypoints. rewrite In_defined, filter_In. now intros [_ H].
Qed.

Lemma allKeypoints_confident poses k :
  In k (allKeypoints poses) -> gtb (score k) 0.3 = true.
Proof.
unfold allKeypoints, headKeypoints, torsoKeypoints, lowerBodyKeypoints.
intros H. repeat (apply in_app_or in H; destruct H as [H|H]);
  eapply groupKeypoints_confident; eauto.
Qed.

Lemma findPart_part poses p k : findPart poses p = Some k -> part k = p.
Proof.
unfold findPart. intros H. apply find_some in H as [_ H].
now apply String.eqb_eq.
Qed.

Lemma includes_In l p : includes l p = true <-> In p l.
Proof.
unfold includes. rewrite existsb_exists. split.
- intros [q [Hin H]]. apply String.eqb_eq in H. now subst.
- intros H. exists p. split; [exact H|apply String.eqb_refl].
Qed.

Lemma lower_is_torso p :
  includes lowerBodyParts p = true -> includes torsoParts p = true.
Proof. intros H. part_cases H; reflexivity. Qed.

Lemma In_groupKeypoints parts poses k :
  In k (groupKeypoints parts poses)
  <-> In (part k) parts /\ findPart poses (part k) = Some k
      /\ gtb (score k) 0.3 = true.
Proof.
unfold groupKeypoints. rewrite In_defined, filter_In, in_map_iff. cbn [confident].
split.
- intros [[p [Hf Hin]] Hc]. rewrite (findPart_part _ _ _ Hf). auto.
- intros [Hin [Hf Hc]]. split; [|exact Hc]. now exists (part k).
Qed.

(** The loop meets the first keypoint of the pose that bears a given part
    name, for the nine names of the groups, when its score exceeds 0.3;
    keypoints of other parts are never met. *)
Lemma In_allKeypoints poses k :
  In k (allKeypoints poses)
  <-> In (part k) (headParts ++ torsoParts)
      /\ findPart poses (part k) = Some k
      /\ gtb (score k) 0.3 = true.
Proof.
unfold allKeypoints, headKeypoints, torsoKeypoints, lowerBodyKeypoints.
rewrite !in_app_iff, !In_groupKeypoints. split.
- intros [H|[H|H]]; destruct H as [Hp H]; split; auto.
  right. apply includes_In, lower_is_torso. now apply includes_In.
- intros [[Hp|Hp] H]; auto.
Qed.

Lemma evaluated_loop poses k : evaluated poses k <-> In k (allKeypoints poses).
Proof. unfold evaluated. symmetry. apply In_allKeypoints. Qed.

Lemma qualifies_evaluated selectedGun poses z :
  qualifies selectedGun poses z = true
  <-> exists k, evaluated poses k /\ inRange selectedGun k = true
                /\ zoneCond poses z k = true.
Proof.
unfold qualifies. rewrite existsb_exists. split.
- intros [k [Hin H]]. apply andb_true_iff in H as [Hr Hc].
  exists k. split; [now apply evaluated_loop|auto].
- intros [k [Hin [Hr Hc]]]. exists k. split; [now apply evaluated_loop|].
  now rewrite Hr, Hc.
Qed.

Lemma none_qualifies selectedGun poses :
  (forall z, qualifies selectedGun poses z = false)
  <-> (forall z k, evaluated poses k -> inRange selectedGun k = true ->
                   zoneCond poses z k = false).
Proof.
split.
- intros H z k Hk Hr. destruct (zoneCond poses z k) eqn:E; [|reflexivity].
  assert (qualifies selectedGun poses z = true) as C
      by (apply qualifies_evaluated; now exists k).
  rewrite H in C. discriminate.
- intros H z. destruct (qualifies selectedGun poses z) eqn:E; [|reflexivity].
  apply qualifies_evaluated in E as [k [Hk [Hr Hc]]].
  rewrite (H z k Hk Hr) in Hc. discriminate.
Qed.

(** *** Outcome of a whole run *)

Lemma reportedZone_hitType v z : hitType v = zoneHitType z -> reportedZone v = Some z.
Proof. unfold reportedZone. intros ->. now destruct z. Qed.

Lemma no_zone_outcome selectedGun poses :
  (forall z, qualifies selectedGun poses z = false) ->
  damage (detectHit selectedGun poses) = 0%Z
  /\ hitType (detectHit selectedGun poses) = "".
Proof.
intros Hq. unfold detectHit.
destruct (Recorded_run selectedGun poses (allKeypoints poses))
  as [Hn Hd Hb Ht | w l1 k l2 El Hk Hb Hd Ht H1 H2]; [auto|].
assert (qualifies selectedGun poses w = true) as C.
{ apply qualifies_candidate. exists k. split; [|exact Hk].
  rewrite El. apply in_or_app. right. now left. }
rewrite Hq in C. discriminate.
Qed.

Lemma damage_values selectedGun poses :
  In (damage (detectHit selectedGun poses)) [0; 10; 15; 20]%Z.
Proof.
unfold detectHit.
destruct (Recorded_run selectedGun poses (allKeypoints poses))
  as [Hn Hd Hb Ht | w l1 k l2 El Hk Hb Hd Ht H1 H2].
- rewrite Hd. now left.
- rewrite Hd. destruct w; cbn; auto.
Qed.

Lemma damage_zero_iff selectedGun poses :
  damage (detectHit selectedGun poses) = 0%Z
  <-> forall z, qualifies selectedGun poses z = false.
Proof.
split; [|apply no_zone_outcome].
unfold detectHit.
destruct (Recorded_run selectedGun poses (allKeypoints poses))
  as [Hn Hd Hb Ht | w l1 k l2 El Hk Hb Hd Ht H1 H2].
- intros _ z. destruct (qualifies selectedGun poses z) eqn:E; [|reflexivity].
  apply qualifies_candidate in E as [k [Hin Hk]].
  rewrite (Hn _ Hin) in Hk. discriminate.
- rewrite Hd. destruct w; discriminate.
Qed.

(** C3, as stated, fails on a tie.  Torso and LowerBody both qualify with
    the same collective score; the order Head, Torso, LowerBody names
    Torso, the loop reports LowerBody with damage 10, because the left hip
    is met first. *)
Lemma tie_order_counterexample :
  qualifies pistol tiePose Head = false
  /\ qualifies pistol tiePose Torso = true
  /\ qualifies pistol tiePose LowerBody = true
  /\ zoneScore tiePose Torso = zoneScore tiePose LowerBody
  /\ specWinner pistol tiePose = Some Torso
  /\ reportedZone (detectHit pistol tiePose) = Some LowerBody
  /\ damage (detectHit pistol tiePose) = 10%Z
  /\ reportedZone (detectHit pistol tiePose) <> specWinner pistol tiePose.
Proof.
vm_compute. repeat split. discriminate.
Qed.

(** The wording "a zone has a keypoint in range, in its band, with a
    collective score above 0.5" is not enough for the loop: the keypoint
    must be one the loop looks at.  Here the nose is in range and in the
    head band and the head's collective score is 0.9 (from the left eye),
    but the nose's own score is 0.2: nothing is reported. *)
Example dim_keypoint_not_evaluated :
  inRange pistol (kp "nose" 320 200 0.2) = true
  /\ zoneCond dimNosePose Head (kp "nose" 320 200 0.2) = true
  /\ ~ evaluated dimNosePose (kp "nose" 320 200 0.2)
  /\ detectHit pistol dimNosePose = initialLocals.
Proof.
split; [reflexivity|split; [reflexivity|split; [|reflexivity]]].
intros [_ [_ H]]. vm_compute in H. discriminate H.
Qed.

(** C3, amended.  The keypoints of the loop are the keypoints the pose
    gives for the nine part names of the groups (the first that bears the
    name) whose own score exceeds 0.3, and a zone qualifies when one of
    them is in range and satisfies the zone's test (part of the group,
    y band, collective score above 0.5).  When no zone qualifies the loop
    reports no zone and damage 0.  When some zone qualifies, the loop
    reports a qualifying zone [w] whose collective score no qualifying
    zone exceeds, with damage 20 for Head, 15 for Torso, 10 for
    LowerBody; among zones of equal score the one reported is the one met
    first in the order of the loop's keypoints: [w] is the zone of an
    in-range keypoint [k], and every in-range keypoint before [k] belongs
    to a zone of strictly smaller score. *)
Theorem winner_first_best selectedGun poses :
  (forall k, In k (allKeypoints poses) <-> evaluated poses k)
  /\ (forall z, qualifies selectedGun poses z = true
                <-> exists k, evaluated poses k /\ inRange selectedGun k = true
                              /\ zoneCond poses z k = true)
  /\ ((forall z, qualifies selectedGun poses z = false) ->
      reportedZone (detectHit selectedGun poses) = None
      /\ damage (detectHit selectedGun poses) = 0%Z)
  /\ (forall z0, qualifies selectedGun poses z0 = true ->
      exists w l1 k l2,
        reportedZone (detectHit selectedGun poses) = Some w
        /\ damage (detectHit selectedGun poses)
           = match w with Head => 20 | Torso => 15 | LowerBody => 10 end%Z
        /\ bestScore (detectHit selectedGun poses) = zoneScore poses w
        /\ qualifies selectedGun poses w = true
        /\ (forall z, qualifies selectedGun poses z = true ->
                      gtb (zoneScore poses z) (zoneScore poses w) = false)
        /\ allKeypoints poses = l1 ++ k :: l2
        /\ evaluated poses k
        /\ inRange selectedGun k = true
        /\ zoneCond poses w k = true
        /\ (forall k' z, In k' l1 -> inRange selectedGun k' = true ->
                         zoneCond poses z k' = true ->
                         gtb (zoneScore poses w) (zoneScore poses z) = true)).
Proof.
split; [intros k; symmetry; apply evaluated_loop|].
split; [intros z; apply qualifies_evaluated|].
split.
- intros Hq. destruct (no_zone_outcome _ _ Hq) as [Hd Ht].
  split; [|exact Hd]. unfold reportedZone. now rewrite Ht.
- intros z0 Hz0. unfold detectHit.
  destruct (Recorded_run selectedGun poses (allKeypoints poses))
    as [Hn Hd Hb Ht | w l1 k l2 El Hk Hb Hd Ht H1 H2].
  + apply qualifies_candidate in Hz0 as [k [Hin Hk]].
    rewrite (Hn _ Hin) in Hk. discriminate.
  + pose proof Hk as Hk'. apply candidate_qualifies in Hk' as [Hr Hc].
    assert (In k (allKeypoints poses)) as Hin0.
    { rewrite El. apply in_or_app. right. now left. }
    exists w, l1, k, l2.
    split; [now apply reportedZone_hitType|].
    split; [rewrite Hd; now destruct w|].
    split; [exact Hb|].
    split; [apply qualifies_candidate; now exists k|].
    split; [|split; [exact El|split; [now apply evaluated_loop|
                                      split; [exact Hr|split; [exact Hc|]]]]].
    * intros z Hz. apply qualifies_candidate in Hz as [k' [Hin Hz]].
      rewrite El in Hin. apply in_app_or in Hin as [Hin|[<-|Hin]].
      -- unfold gtb. apply ltb_asym. exact (H1 _ _ Hin Hz).
      -- assert (z = w) by congruence. subst z. unfold gtb. apply ltb_irrefl.
      -- exact (H2 _ _ Hin Hz).
    * intros k' z Hin Hr' Hc'. apply (H1 k' z Hin).
      now apply candidate_qualifies.
Qed.

Lemma winner_first_best_witness :
  exists w l1 k l2,
    reportedZone (detectHit pistol tiePose) = Some w
    /\ damage (detectHit pistol tiePose)
       = match w with Head => 20 | Torso => 15 | LowerBody => 10 end%Z
    /\ bestScore (detectHit pistol tiePose) = zoneScore tiePose w
    /\ qualifies pistol tiePose w = true
    /\ (forall z, qualifies pistol tiePose z = true ->
                  gtb (zoneScore tiePose z) (zoneScore tiePose w) = false)
    /\ allKeypoints tiePose = l1 ++ k :: l2
    /\ evaluated tiePose k
    /\ inRange pistol k = true
    /\ zoneCond tiePose w k = true
    /\ (forall k' z, In k' l1 -> inRange pistol k' = true ->
                     zoneCond tiePose z k' = true ->
                     gtb (zoneScore tiePose w) (zoneScore tiePose z) = true).
Proof.
apply (proj2 (proj2 (proj2 (winner_first_best pistol tiePose))) Torso).
vm_compute. reflexivity.
Defined.

(** *** The message sent to the relay *)

(** C2 at its failing input: no zone qualifies (the head's collective
    score is 0.4), yet the nose is in range, [hitDetected] is set and a
    shoot message with damage 0 is sent. *)
Lemma no_zone_still_emits :
  (forall z, qualifies pistol faintPose z = false)
  /\ hitDetected (detectHit pistol faintPose) = true
  /\ handleShoot (fullRefs loaded) 1000 (Resolved faintPose) connected
     = (setLastShot 1000 connected,
        [EstimateSinglePose; EmitShoot (Some "alice") 0; PlayShootSound]).
Proof.
split; [|split].
- intros []; vm_compute; reflexivity.
- vm_compute. reflexivity.
- vm_compute. reflexivity.
Qed.

Lemma handleShoot_trace r video now poses s :
  socketRef r = true -> netRef r = true -> videoRef r = Some video ->
  (500 <= now - lastShot s)%Z ->
  snd (handleShoot r now (Resolved poses) s)
  = (if (readyState video <? 4)%Z then [Sleep 1000] else [])
      ++ EstimateSinglePose
      :: (if hitDetected (detectHit (selectedGun s) poses)
          then EmitShoot (socketId s) (damage (detectHit (selectedGun s) poses))
               :: (if shootSoundRef r then [PlayShootSound] else [])
          else []).
Proof.
intros H1 H2 H3 H. unfold handleShoot. rewrite H1, H2, H3.
destruct (Z.ltb_spec (now - lastShot s) 500); [lia|].
destruct (hitDetected _); reflexivity.
Qed.

Lemma emitted_shoot r now est s sid d :
  In (EmitShoot sid d) (snd (handleShoot r now est s)) ->
  exists poses,
    est = Resolved poses /\ sid = socketId s
    /\ d = damage (detectHit (selectedGun s) poses)
    /\ hitDetected (detectHit (selectedGun s) poses) = true.
Proof.
unfold handleShoot.
destruct (socketRef r), (netRef r), (videoRef r) as [video|]; try (intros []).
destruct (now - lastShot s <? 500)%Z; [intros []|].
assert (forall l, In (EmitShoot sid d)
                     ((if (readyState video <? 4)%Z then [Sleep 1000] else []) ++ l)
                  -> In (EmitShoot sid d) l) as Hwait.
{ intros l Hin. apply in_app_or in Hin as [Hin|Hin]; [|exact Hin].
  destruct (readyState video <? 4)%Z; [destruct Hin as [Hin|[]]; discriminate|destruct Hin]. }
destruct est as [poses|]; cbn [snd].
- destruct (hitDetected (detectHit (selectedGun s) poses)) eqn:Eh; cbn [snd]; intros Hin.
  + apply Hwait in Hin.
    destruct Hin as [Hin|[Hin|Hin]]; [discriminate| |].
    * injection Hin as <- <-. now exists poses.
    * destruct (shootSoundRef r); [destruct Hin as [Hin|[]]; discriminate|destruct Hin].
  + apply Hwait in Hin. destruct Hin as [Hin|[]]; discriminate.
- intros Hin. apply Hwait in Hin. destruct Hin as [Hin|[]]; discriminate.
Qed.

(** What does hold of C2: with no keypoint of the loop in range, no shoot
    message is sent. *)
Lemma out_of_range_no_message r now poses s sid d :
  (forall k, In k (allKeypoints poses) -> inRange (selectedGun s) k = false) ->
  ~ In (EmitShoot sid d) (snd (handleShoot r now (Resolved poses) s)).
Proof.
intros Hout Hin.
apply emitted_shoot in Hin as [poses' [[= <-] [_ [_ Hh]]]].
unfold detectHit in Hh. rewrite hitDetected_run in Hh.
cbn [hitDetected initialLocals orb] in Hh.
apply existsb_exists in Hh as [k [Hk Hr]].
rewrite (Hout k Hk) in Hr. discriminate.
Qed.

(** C9, as stated, fails: a left knee at the centre has a score above 0.3
    and lies within the aim radius, and no zone passes its collective-score
    test (the three collective scores are 0), yet nothing is sent: the knee
    is no part of a group and the loop never looks at it. *)
Lemma knee_counterexample :
  (exists k, In k (keypoints kneePose)
             /\ gtb (score k) 0.3 = true /\ inRange pistol k = true)
  /\ (forall z, gtb (zoneScore kneePose z) threshold = false)
  /\ snd (handleShoot (fullRefs loaded) 1000 (Resolved kneePose) connected)
     = [EstimateSinglePose]
  /\ ~ In (EmitShoot (socketId connected) 0)
          (snd (handleShoot (fullRefs loaded) 1000 (Resolved kneePose) connected)).
Proof.
split; [|split; [|split]].
- exists (kp "leftKnee" 320 240 0.9). split; [now left|split; reflexivity].
- intros []; reflexivity.
- vm_compute. reflexivity.
- vm_compute. intros [H|[]]. discriminate H.
Qed.

(** C9, amended.  Every shoot message carries the [socketId] of the
    client and a damage among 0, 10, 15, 20.  For a shot that passes the
    guards and whose pose estimate resolves, a message with damage 0 is
    sent exactly when some keypoint the loop looks at (the first keypoint
    of the pose bearing one of the nine part names of the groups, with
    individual score above 0.3) lies within the aim radius and no such
    keypoint in range satisfies the test of a zone. *)
Theorem shoot_message r now est s :
  (forall sid d,
      In (EmitShoot sid d) (snd (handleShoot r now est s)) ->
      sid = socketId s /\ In d [0; 10; 15; 20]%Z)
  /\ (forall video poses,
         socketRef r = true -> netRef r = true -> videoRef r = Some video ->
         (500 <= now - lastShot s)%Z ->
         est = Resolved poses ->
         (In (EmitShoot (socketId s) 0) (snd (handleShoot r now est s))
          <-> (exists k, evaluated poses k /\ inRange (selectedGun s) k = true)
              /\ (forall z k, evaluated poses k ->
                              inRange (selectedGun s) k = true ->
                              zoneCond poses z k = false))).
Proof.
split.
- intros sid d Hin.
  apply emitted_shoot in Hin as [poses [_ [-> [-> _]]]].
  split; [reflexivity|apply damage_values].
- intros video poses H1 H2 H3 Hcool ->. rewrite <- none_qualifies. split.
  + intros Hin. apply emitted_shoot in Hin as [poses' [[= <-] [_ [Hd Hh]]]].
    split.
    * unfold detectHit in Hh. rewrite hitDetected_run in Hh.
      cbn [hitDetected initialLocals orb] in Hh.
      apply existsb_exists in Hh as [k [Hin Hr]].
      exists k. split; [now apply evaluated_loop|exact Hr].
    * apply damage_zero_iff. now symmetry.
  + intros [[k [Hin Hr]] Hq]. apply evaluated_loop in Hin.
    rewrite (handleShoot_trace r video now poses s H1 H2 H3 Hcool).
    apply in_or_app. right. right.
    assert (hitDetected (detectHit (selectedGun s) poses) = true) as ->.
    { unfold detectHit. rewrite hitDetected_run. cbn [hitDetected initialLocals orb].
      apply existsb_exists. now exists k. }
    apply damage_zero_iff in Hq. rewrite Hq. now left.
Qed.

Lemma shoot_message_witness :
  In (EmitShoot (socketId connected) 0)
     (snd (handleShoot (fullRefs loaded) 1000 (Resolved faintPose) connected))
  <-> (exists k, evaluated faintPose k /\ inRange (selectedGun connected) k = true)
      /\ (forall z k, evaluated faintPose k ->
                      inRange (selectedGun connected) k = true ->
                      zoneCond faintPose z k = false).
Proof.
apply (proj2 (shoot_message (fullRefs loaded) 1000 (Resolved faintPose) connected)
             loaded faintPose);
  solve [reflexivity | vm_compute; discriminate].
Defined.

(** *** Weapons *)

Lemma loopBody_radius g1 g2 poses v k :
  inRange g1 k = inRange g2 k -> loopBody g1 poses v k = loopBody g2 poses v k.
Proof.
unfold loopBody, inRange. now intros ->.
Qed.

Lemma runLoop_radius g1 g2 poses l v :
  (forall k, In k l -> inRange g1 k = inRange g2 k) ->
  runLoop g1 poses l v = runLoop g2 poses l v.
Proof.
revert v. induction l as [|k l IH]; intros v H; [reflexivity|].
cbn. rewrite (loopBody_radius g1 g2) by (apply H; now left).
apply IH. intros k' Hin. apply H. now right.
Qed.

(** C8.  The aim radius is 100 for the sniper, 200 for the pistol, 400
    for the shotgun.  With any weapon the damage is that of the reported
    zone (Head 20, Torso 15, LowerBody 10, none 0).  The weapon enters
    the loop through the range test only: two weapons that put the same
    keypoints of a pose in range give the same outcome. *)
Theorem weapon_changes_range_only :
  radius sniper = 100%float /\ radius pistol = 200%float
  /\ radius shotgun = 400%float
  /\ (forall selectedGun poses,
         damage (detectHit selectedGun poses)
         = match reportedZone (detectHit selectedGun poses) with
           | Some Head => 20
           | Some Torso => 15
           | Some LowerBody => 10
           | None => 0
           end%Z)
  /\ (forall g1 g2 poses,
         (forall k, In k (allKeypoints poses) -> inRange g1 k = inRange g2 k) ->
         detectHit g1 poses = detectHit g2 poses).
Proof.
split; [reflexivity|]. split; [reflexivity|]. split; [reflexivity|]. split.
- intros selectedGun poses. unfold detectHit.
  destruct (Recorded_run selectedGun poses (allKeypoints poses))
    as [Hn Hd Hb Ht | w l1 k l2 El Hk Hb Hd Ht H1 H2].
  + unfold reportedZone. now rewrite Ht, Hd.
  + rewrite (reportedZone_hitType _ _ Ht), Hd. now destruct w.
- intros g1 g2 poses H. unfold detectHit. now apply runLoop_radius.
Qed.

Lemma weapon_changes_range_only_witness :
  detectHit sniper facePose = detectHit pistol facePose.
Proof.
apply weapon_changes_range_only.
intros k [<-|[]]. vm_compute. reflexivity.
Defined.

(** *** Keypoints met twice *)

Section Twice.

Variable selectedGun : Gun.
Variable poses : Pose.

Lemma setHitDetected_id v : hitDetected v = true -> setHitDetected v = v.
Proof. destruct v as [h d b t]. cbn. now intros ->. Qed.

Lemma settled_fixed k v : settled selectedGun poses k v -> loopBody selectedGun poses v k = v.
Proof.
intros [Hr|[Hh Hz]]; rewrite loopBody_candidate.
- now rewrite Hr.
- destruct (inRange selectedGun k); [|reflexivity].
  destruct (candidate selectedGun poses k) as [z|].
  + unfold award, improve. rewrite (Hz z eq_refl). now apply setHitDetected_id.
  + now apply setHitDetected_id.
Qed.

Lemma settled_after k v : settled selectedGun poses k (loopBody selectedGun poses v k).
Proof.
unfold settled. rewrite loopBody_candidate.
destruct (inRange selectedGun k); [right|now left].
split; [reflexivity|]. intros z ->. unfold award, improve.
destruct (gtb (zoneScore poses z) (bestScore v)) eqn:E; cbn.
- unfold gtb. apply ltb_irrefl.
- exact E.
Qed.

Lemma settled_kept k k' v :
  settled selectedGun poses k v -> settled selectedGun poses k (loopBody selectedGun poses v k').
Proof.
intros [Hr|[Hh Hz]]; [now left|right].
rewrite loopBody_candidate.
destruct (inRange selectedGun k'); [|now split].
split; [reflexivity|]. intros z Hk. specialize (Hz z Hk).
destruct (candidate selectedGun poses k') as [z'|]; [|exact Hz].
unfold award, improve.
destruct (gtb (zoneScore poses z') (bestScore v)) eqn:E; cbn; [|exact Hz].
unfold gtb in *. eapply ltb_absorb; eauto.
Qed.

Lemma settled_run k l v :
  In k l -> settled selectedGun poses k (runLoop selectedGun poses l v).
Proof.
induction l as [|k' l IH] using rev_ind; [intros []|].
intros Hin. rewrite run_last.
apply in_app_or in Hin as [Hin|[<-|[]]].
- now apply settled_kept, IH.
- apply settled_after.
Qed.

(** Iterating again over keypoints already met leaves the variables as
    they are. *)
Lemma run_again l l' v :
  (forall k, In k l' -> In k l) ->
  runLoop selectedGun poses l' (runLoop selectedGun poses l v)
  = runLoop selectedGun poses l v.
Proof.
induction l' as [|k l' IH]; intros Hsub; [reflexivity|].
change (runLoop selectedGun poses (k :: l') (runLoop selectedGun poses l v))
  with (runLoop selectedGun poses l'
          (loopBody selectedGun poses (runLoop selectedGun poses l v) k)).
rewrite settled_fixed.
- apply IH. intros k' Hin. apply Hsub. now right.
- apply settled_run. apply Hsub. now left.
Qed.

End Twice.

(** *** The groups share the hips *)

Lemma defined_app l1 l2 : defined (l1 ++ l2) = defined l1 ++ defined l2.
Proof.
induction l1 as [|[k|] l1 IH]; cbn; [reflexivity| |exact IH].
now rewrite IH.
Qed.

Lemma groupKeypoints_app parts1 parts2 poses :
  groupKeypoints (parts1 ++ parts2) poses
  = groupKeypoints parts1 poses ++ groupKeypoints parts2 poses.
Proof.
unfold groupKeypoints. now rewrite map_app, filter_app, defined_app.
Qed.

(** The part names of a group's keypoints, in order. *)
Lemma groupKeypoints_parts parts poses :
  map part (groupKeypoints parts poses)
  = filter (fun p => confident (findPart poses p)) parts.
Proof.
unfold groupKeypoints. induction parts as [|p parts IH]; [reflexivity|].
cbn [map filter].
destruct (findPart poses p) as [k|] eqn:E; cbn [confident].
- destruct (gtb (score k) 0.3); cbn [defined map]; [|exact IH].
  now rewrite IH, (findPart_part _ _ _ E).
- exact IH.
Qed.

Lemma distinctFrom_seen seen l :
  (forall k, In k l -> In (part k) seen) -> distinctFrom seen l = [].
Proof.
induction l as [|k l IH]; intros H; [reflexivity|].
cbn. rewrite (proj2 (includes_In seen (part k))) by (apply H; now left).
apply IH. intros k' Hin. apply H. now right.
Qed.

Lemma distinctFrom_fresh l : forall seen l',
  NoDup (map part l) ->
  (forall k, In k l -> ~ In (part k) seen) ->
  distinctFrom seen (l ++ l') = l ++ distinctFrom (rev (map part l) ++ seen) l'.
Proof.
induction l as [|k l IH]; intros seen l' Hnd Hfresh; [reflexivity|].
cbn [app distinctFrom map rev].
destruct (includes seen (part k)) eqn:E.
- apply includes_In in E. exfalso. apply (Hfresh k); [now left|exact E].
- inversion Hnd as [|p ps Hnotin Hnd']; subst.
  rewrite (IH (part k :: seen) l' Hnd').
  + now rewrite <- app_assoc.
  + intros k' Hin [Heq|Hs].
    * apply Hnotin. rewrite Heq. now apply in_map.
    * apply (Hfresh k'); [now right|exact Hs].
Qed.

Lemma parts_NoDup : NoDup (headParts ++ torsoParts).
Proof.
unfold headParts, torsoParts. cbn [app].
repeat (constructor; [cbn; intuition discriminate|]). constructor.
Qed.

Lemma lower_in_torso poses k :
  In k (lowerBodyKeypoints poses) -> In k (torsoKeypoints poses).
Proof.
unfold lowerBodyKeypoints, torsoKeypoints.
change torsoParts with (["leftShoulder"; "rightShoulder"] ++ lowerBodyParts).
rewrite groupKeypoints_app. intros H. apply in_or_app. now right.
Qed.

(** C10.  The hips are in the torso list and in the lower-body list, so
    the loop meets them twice; keeping the first entry of each keypoint
    leaves the head list followed by the torso list, and iterating over
    that list gives the same [hitDetected], [damage], [bestScore] and
    [hitType] as the loop over [allKeypoints]. *)
Theorem duplicates_change_nothing selectedGun poses :
  torsoKeypoints poses
  = groupKeypoints ["leftShoulder"; "rightShoulder"] poses ++ lowerBodyKeypoints poses
  /\ distinctKeypoints poses = headKeypoints poses ++ torsoKeypoints poses
  /\ NoDup (map part (distinctKeypoints poses))
  /\ detectHit selectedGun poses
     = runLoop selectedGun poses (distinctKeypoints poses) initialLocals.
Proof.
assert (NoDup (map part (headKeypoints poses ++ torsoKeypoints poses))) as Hnd.
{ unfold headKeypoints, torsoKeypoints.
  rewrite <- groupKeypoints_app, groupKeypoints_parts.
  apply NoDup_filter, parts_NoDup. }
assert (distinctKeypoints poses = headKeypoints poses ++ torsoKeypoints poses) as Hd.
{ unfold distinctKeypoints, allKeypoints. rewrite app_assoc.
  rewrite distinctFrom_fresh.
  - rewrite distinctFrom_seen; [apply app_nil_r|].
    intros k Hin. apply in_or_app. left. rewrite <- in_rev.
    apply in_map, in_or_app. right. now apply lower_in_torso.
  - exact Hnd.
  - intros k _ []. }
split; [|split; [exact Hd|split; [now rewrite Hd|]]].
- unfold torsoKeypoints, lowerBodyKeypoints. now rewrite <- groupKeypoints_app.
- rewrite Hd. unfold detectHit, allKeypoints.
  rewrite app_assoc, run_app. apply run_again.
  intros k Hin. apply in_or_app. right. now apply lower_in_torso.
Qed.

(** *** Which keypoints the loop meets, and in which order *)

Lemma zoneCond_part poses z k :
  zoneCond poses z k = true ->
  includes headParts (part k) = match z with Head => true | _ => false end.
Proof.
destruct z; cbn [zoneCond]; unfold headCond, torsoCond, lowerBodyCond; intros H.
- apply andb_true_iff in H as [H _]. now apply andb_true_iff in H as [H _].
- apply andb_true_iff in H as [H _]. apply andb_true_iff in H as [H _].
  apply andb_true_iff in H as [H _].
  destruct (includes headParts (part k)) eqn:E; [|reflexivity].
  apply head_not_torso in E. congruence.
- apply andb_true_iff in H as [H _]. apply andb_true_iff in H as [H _].
  now apply lower_not_head.
Qed.

(** In [allKeypoints] no head keypoint comes after a keypoint of another
    group. *)
Lemma head_keypoints_first poses l1 k l2 kh :
  allKeypoints poses = l1 ++ k :: l2 ->
  In kh l2 ->
  includes headParts (part kh) = true ->
  includes headParts (part k) = true.
Proof.
intros El Hin Hh.
assert (forall k', In k' (torsoKeypoints poses ++ lowerBodyKeypoints poses) ->
                   includes headParts (part k') = false) as Hrest.
{ intros k' H. apply in_app_or in H.
  assert (includes torsoParts (part k') = true) as Ht.
  { destruct H as [H|H]; apply In_groupKeypoints in H as [H _];
      apply includes_In in H; [exact H|now apply lower_is_torso]. }
  destruct (includes headParts (part k')) eqn:E; [|reflexivity].
  apply head_not_torso in E. congruence. }
unfold allKeypoints in El.
apply app_eq_app in El as [l [[E1 E2]|[E1 E2]]].
- destruct l as [|k0 l].
  + cbn [app] in E2. rewrite <- E2 in Hrest.
    rewrite (Hrest kh) in Hh by now right. discriminate.
  + injection E2 as <- E2.
    assert (In k (headKeypoints poses)) as Hk.
    { rewrite E1. apply in_or_app. right. now left. }
    apply In_groupKeypoints in Hk as [Hk _]. now apply includes_In.
- rewrite (Hrest kh) in Hh; [discriminate|].
  rewrite E2. apply in_or_app. right. now right.
Qed.

(** The part of C3's tie rule that holds: a qualifying Head that no
    qualifying zone exceeds is the zone reported. *)
Lemma head_wins_ties selectedGun poses :
  qualifies selectedGun poses Head = true ->
  (forall z, qualifies selectedGun poses z = true ->
             gtb (zoneScore poses z) (zoneScore poses Head) = false) ->
  reportedZone (detectHit selectedGun poses) = Some Head
  /\ damage (detectHit selectedGun poses) = 20%Z.
Proof.
intros Hq Hmax. unfold detectHit.
apply qualifies_candidate in Hq as [kh [Hin Hkh]].
destruct (Recorded_run selectedGun poses (allKeypoints poses))
  as [Hn Hd Hb Ht | w l1 k l2 El Hk Hb Hd Ht H1 H2].
- rewrite (Hn _ Hin) in Hkh. discriminate.
- assert (w = Head) as ->.
  { assert (qualifies selectedGun poses w = true) as Hw.
    { apply qualifies_candidate. exists k. split; [|exact Hk].
      rewrite El. apply in_or_app. right. now left. }
    rewrite El in Hin. apply in_app_or in Hin as [Hin|[<-|Hin]].
    - pose proof (H1 _ _ Hin Hkh) as C. rewrite (Hmax _ Hw) in C. discriminate.
    - congruence.
    - apply candidate_qualifies in Hkh as [_ Hkh]. apply zoneCond_part in Hkh.
      pose proof (head_keypoints_first _ _ _ _ _ El Hin Hkh) as Hp.
      apply candidate_qualifies in Hk as [_ Hk]. apply zoneCond_part in Hk.
      rewrite Hp in Hk. now destruct w. }
  split; [now apply reportedZone_hitType|exact Hd].
Qed.

End Hit.

(** ** Further properties of the session handlers *)
Module Lifecycle.

(** The same holds of a handler that captured any phase. *)
Lemma playerUpdateIn_idempotent closure ps s :
  onPlayerUpdateIn closure ps (onPlayerUpdateIn closure ps s)
  = onPlayerUpdateIn closure ps s.
Proof.
unfold onPlayerUpdateIn.
destruct (Nat.eqb (List.length ps) 2 && GameStatus_eqb closure Waiting); reflexivity.
Qed.

(** X1.  Delivering the same roster twice leaves the state the first
    delivery produced: the handler is idempotent. *)
Theorem playerUpdate_idempotent ps s :
  onPlayerUpdate ps (onPlayerUpdate ps s) = onPlayerUpdate ps s.
Proof.
unfold onPlayerUpdate, onPlayerUpdateIn.
destruct (Nat.eqb (List.length ps) 2), (gameStatus s) eqn:E; cbn; rewrite ?E; reflexivity.
Qed.

(** X2.  An event changes the phase in three ways only: to Ready on a
    roster of exactly two handled by a handler that captured the waiting
    phase (whatever the phase has become since), to Over on a [gameOver],
    to Waiting on Play Again; every other event leaves the phase as it is. *)
Theorem phase_transitions closure r e s :
  gameStatus (fst (reactIn closure r e s)) = gameStatus s
  \/ (closure = Waiting /\ gameStatus (fst (reactIn closure r e s)) = Ready
      /\ exists ps, e = PlayerUpdate ps /\ List.length ps = 2%nat)
  \/ (gameStatus (fst (reactIn closure r e s)) = Over
      /\ exists payload, e = GameOver payload)
  \/ (gameStatus (fst (reactIn closure r e s)) = Waiting /\ e = PlayAgainClick).
Proof.
destruct e as [i|ps|payload|now est|g|]; cbn [reactIn fst].
- now left.
- unfold onPlayerUpdateIn.
  destruct (Nat.eqb_spec (List.length ps) 2) as [El|El]; [|now left].
  destruct closure; cbn; [|now left|now left].
  right. left. repeat split. now exists ps.
- right. right. left. split; [reflexivity|now exists payload].
- left. destruct (Session.handleShoot_state r now est s) as [E|E]; now rewrite E.
- now left.
- right. right. right. now split.
Qed.

(** A roster of two that arrives right after a [gameOver], before the
    lobby is rendered again, is handled by the handler that captured the
    waiting phase: the session ends Ready with the winner still set. *)
Example stale_update_after_gameOver :
  gameStatus (current (runSteps staleRun initialConfig)) = Ready
  /\ winner (current (runSteps staleRun initialConfig)) = Some "bob".
Proof. split; reflexivity. Qed.

Lemma winner_from_gameOver steps : forall c,
  (forall w, winner (current c) = Some w -> gameStatus (current c) <> Waiting) ->
  forall w, winner (current (runSteps steps c)) = Some w ->
  gameStatus (current (runSteps steps c)) <> Waiting
  /\ (winner (current c) = Some w
      \/ exists r, In (Deliver r (GameOver (Some w))) steps).
Proof.
induction steps as [|st steps IH]; intros c Hc w Hw.
- cbn in *. split; [now apply (Hc w)|now left].
- change (runSteps (st :: steps) c) with (runSteps steps (stepConfig c st)) in *.
  assert (forall w', winner (current (stepConfig c st)) = Some w' ->
                     gameStatus (current (stepConfig c st)) <> Waiting
                     /\ (winner (current c) = Some w'
                         \/ exists r, st = Deliver r (GameOver (Some w')))) as Hst.
  { intros w' H. destruct st as [r e|]; cbn [stepConfig current] in H |- *;
      [|split; [now apply (Hc w')|now left]].
    destruct e as [i|ps|payload|now est|g|]; cbn [reactIn fst] in H |- *.
    - cbn in H |- *. split; [now apply (Hc w')|now left].
    - unfold onPlayerUpdateIn in H |- *.
      destruct (Nat.eqb _ 2 && GameStatus_eqb (captured c) Waiting); cbn in H |- *.
      + split; [discriminate|now left].
      + split; [now apply (Hc w')|now left].
    - cbn in H |- *. split; [discriminate|]. right. exists r. congruence.
    - destruct (Session.handleShoot_state r now est (current c)) as [E|E];
        rewrite E in H |- *; cbn in H |- *;
        (split; [now apply (Hc w')|now left]).
    - cbn in H |- *. split; [now apply (Hc w')|now left].
    - cbn in H. discriminate H. }
  destruct (IH (stepConfig c st) (fun w' H => proj1 (Hst w' H)) w Hw) as [Hn [Hp|[r Hin]]].
  + split; [exact Hn|].
    destruct (Hst w Hp) as [_ [H|[r ->]]]; [now left|].
    right. exists r. now left.
  + split; [exact Hn|]. right. exists r. now right.
Qed.

(** X3.  In every configuration reached from the initial one, a winner
    that is set was delivered by a [gameOver] event, and the phase is then
    not Waiting: the winner is null throughout the waiting phase. *)
Theorem winner_set_by_gameOver steps w :
  winner (current (runSteps steps initialConfig)) = Some w ->
  gameStatus (current (runSteps steps initialConfig)) <> Waiting
  /\ exists r, In (Deliver r (GameOver (Some w))) steps.
Proof.
intros Hw.
destruct (winner_from_gameOver steps initialConfig) with (w := w) as [Hn [H|H]];
  auto; discriminate.
Qed.

Lemma winner_set_by_gameOver_witness :
  gameStatus (current (runSteps staleRun initialConfig)) <> Waiting
  /\ exists r, In (Deliver r (GameOver (Some "bob"))) staleRun.
Proof.
apply (winner_set_by_gameOver staleRun "bob"). reflexivity.
Defined.

(** X4.  Play Again, from any phase, clears the winner, keeps the roster
    and the other cells, and sends [resetGame] when there is a socket; the
    next roster update then decides the phase by its length alone. *)
Theorem reset_then_update r ps s :
  fst (handleReset r s)
  = {| players := players s; gameStatus := Waiting; socketId := socketId s;
       winner := None; lastShot := lastShot s; selectedGun := selectedGun s |}
  /\ snd (handleReset r s) = (if socketRef r then [EmitResetGame] else [])
  /\ gameStatus (onPlayerUpdate ps (fst (handleReset r s)))
     = (if Nat.eqb (List.length ps) 2 then Ready else Waiting)
  /\ winner (onPlayerUpdate ps (fst (handleReset r s))) = None.
Proof.
split; [reflexivity|split; [reflexivity|]].
unfold onPlayerUpdate, onPlayerUpdateIn. cbn.
destruct (Nat.eqb (List.length ps) 2); split; reflexivity.
Qed.

End Lifecycle.

(** ** Further properties of the shot operation *)
Module Trigger.

Lemma handleShoot_lastShot r now est s :
  fst (handleShoot r now est s) = s
  \/ (fst (handleShoot r now est s) = setLastShot now s
      /\ (500 <= now - lastShot s)%Z).
Proof.
unfold handleShoot.
destruct (socketRef r), (netRef r), (videoRef r); auto.
destruct (Z.ltb_spec (now - lastShot s) 500); auto.
right. split; [|assumption].
destruct est as [poses|]; auto.
destruct (hitDetected _); auto.
Qed.

(** X5.  The shot operation writes no cell but [lastShot], and moves it
    only to [now], and only when [now] is at least 500 past the old value. *)
Theorem handleShoot_frame r now est s :
  players (fst (handleShoot r now est s)) = players s
  /\ gameStatus (fst (handleShoot r now est s)) = gameStatus s
  /\ socketId (fst (handleShoot r now est s)) = socketId s
  /\ winner (fst (handleShoot r now est s)) = winner s
  /\ selectedGun (fst (handleShoot r now est s)) = selectedGun s
  /\ (lastShot (fst (handleShoot r now est s)) = lastShot s
      \/ (lastShot (fst (handleShoot r now est s)) = now
          /\ (500 <= now - lastShot s)%Z)).
Proof.
destruct (handleShoot_lastShot r now est s) as [E|[E H]]; rewrite E; cbn;
  repeat split; auto.
Qed.

Lemma estimate_accepted r now est s :
  In EstimateSinglePose (snd (handleShoot r now est s)) ->
  lastShot (fst (handleShoot r now est s)) = now /\ (500 <= now - lastShot s)%Z.
Proof.
unfold handleShoot.
destruct (socketRef r), (netRef r), (videoRef r); try (intros []).
destruct (Z.ltb_spec (now - lastShot s) 500); [intros []|].
intros _. split; [|assumption].
destruct est as [poses|]; [|reflexivity].
now destruct (hitDetected _).
Qed.

Lemma react_lastShot r e s : (lastShot s <= lastShot (fst (react r e s)))%Z.
Proof.
unfold react.
destruct e as [i|ps|payload|now est|g|]; cbn [reactIn fst]; try (cbn; lia).
- unfold onPlayerUpdateIn. destruct (_ && _); cbn; lia.
- destruct (handleShoot_lastShot r now est s) as [E|[E H]]; rewrite E; cbn; lia.
Qed.

Lemma runEvents_lastShot es : forall s, (lastShot s <= lastShot (runEvents es s))%Z.
Proof.
induction es as [|[r e] es IH]; intros s; cbn [runEvents]; [lia|].
pose proof (react_lastShot r e s). pose proof (IH (fst (react r e s))). lia.
Qed.

(** X6.  Two invocations that both reach the pose estimate are at least
    500 ms apart, whatever events are handled between them. *)
Theorem estimates_spaced r1 t1 e1 es r2 t2 e2 s :
  In EstimateSinglePose (snd (handleShoot r1 t1 e1 s)) ->
  In EstimateSinglePose
     (snd (handleShoot r2 t2 e2 (runEvents es (fst (handleShoot r1 t1 e1 s))))) ->
  (500 <= t2 - t1)%Z.
Proof.
intros H1 H2.
apply estimate_accepted in H1 as [H1 _].
apply estimate_accepted in H2 as [_ H2].
pose proof (runEvents_lastShot es (fst (handleShoot r1 t1 e1 s))). lia.
Qed.

Lemma estimates_spaced_witness : (500 <= 1700 - 1000)%Z.
Proof.
apply (estimates_spaced (fullRefs loaded) 1000 Rejected
                        [(fullRefs loaded, GunClick sniper);
                         (fullRefs loaded, ShootClick 1200 Rejected)]
                        (fullRefs loaded) 1700 (Resolved facePose) connected);
  vm_compute; auto.
Defined.

(** The traces of the shot operation. *)
Lemma trace_shapes r now est s :
  exists wait,
    (wait = [] \/ wait = [Sleep 1000])
    /\ (snd (handleShoot r now est s) = []
        \/ snd (handleShoot r now est s) = wait ++ [EstimateSinglePose]
        \/ exists sid d tail,
             (tail = [] \/ tail = [PlayShootSound])
             /\ snd (handleShoot r now est s)
                = wait ++ EstimateSinglePose :: EmitShoot sid d :: tail).
Proof.
unfold handleShoot.
destruct (socketRef r), (netRef r), (videoRef r) as [video|];
  try (exists []; split; [now left|now left]).
destruct (now - lastShot s <? 500)%Z; [exists []; split; [now left|now left]|].
exists (if (readyState video <? 4)%Z then [Sleep 1000] else []).
split; [destruct (readyState video <? 4)%Z; auto|].
destruct est as [poses|]; [|right; now left].
destruct (hitDetected _); [|right; now left].
right. right. exists (socketId s), (damage (detectHit (selectedGun s) poses)),
  (if shootSoundRef r then [PlayShootSound] else []).
split; [destruct (shootSoundRef r); auto|reflexivity].
Qed.

(** X7.  In one invocation a shoot message is sent at most once, only
    after the pose estimate of that invocation, and nothing but the shoot
    sound follows it. *)
Theorem emit_after_estimate r now est s l1 sid d l2 :
  snd (handleShoot r now est s) = l1 ++ EmitShoot sid d :: l2 ->
  In EstimateSinglePose l1
  /\ (forall sid' d', ~ In (EmitShoot sid' d') (l1 ++ l2))
  /\ (l2 = [] \/ l2 = [PlayShootSound]).
Proof.
intros H.
destruct (trace_shapes r now est s) as [wait [Hw [E|[E|[sid0 [d0 [tail [Ht E]]]]]]]];
  rewrite E in H; clear E.
- destruct l1; discriminate H.
- exfalso. destruct Hw as [-> | ->]; cbn in H;
    repeat (destruct l1 as [|? l1]; cbn in H; try discriminate H;
            injection H as ? H; try discriminate).
- destruct Hw as [-> | ->], Ht as [-> | ->]; cbn in H;
    repeat (destruct l1 as [|? l1]; cbn in H; try discriminate H;
            injection H as ? H; try discriminate);
    subst; cbn;
    (split; [tauto|split; [|tauto]]);
    intros sid' d' Hin; cbn in Hin;
    repeat (destruct Hin as [Hin|Hin]; try discriminate Hin); auto.
Qed.

Lemma emit_after_estimate_witness :
  In EstimateSinglePose [EstimateSinglePose]
  /\ (forall sid' d', ~ In (EmitShoot sid' d') ([EstimateSinglePose] ++ [PlayShootSound]))
  /\ ([PlayShootSound] = [] \/ [PlayShootSound] = [PlayShootSound]).
Proof.
apply (emit_after_estimate (fullRefs loaded) 1000 (Resolved facePose) connected
                           [EstimateSinglePose] (Some "alice") 20 [PlayShootSound]).
vm_compute. reflexivity.
Defined.

Lemma react_socketId r e s :
  socketId (fst (react r e s))
  = match e with Connect i => Some i | _ => socketId s end.
Proof.
unfold react.
destruct e as [i|ps|payload|now est|g|]; cbn [reactIn fst]; try reflexivity.
- unfold onPlayerUpdateIn. now destruct (_ && _).
- destruct (handleShoot_lastShot r now est s) as [E|[E _]]; now rewrite E.
Qed.

Lemma runEvents_socketId es :
  forall s, socketId (runEvents es s) = lastConnect es (socketId s).
Proof.
induction es as [|[r e] es IH]; intros s; [reflexivity|].
cbn [runEvents]. rewrite IH, react_socketId. now destruct e.
Qed.

(** X20.  After any run of events the [socketId] cell holds the id of the
    latest [connect] event (its earlier value when there was none), and
    that is the [shooterId] of a shoot message sent next. *)
Theorem shooter_is_last_connect es r now est s sid d :
  In (EmitShoot sid d) (snd (handleShoot r now est (runEvents es s))) ->
  sid = lastConnect es (socketId s)
  /\ socketId (runEvents es s) = lastConnect es (socketId s).
Proof.
intros H. apply Hit.emitted_shoot in H as [poses [_ [-> _]]].
split; apply runEvents_socketId.
Qed.

Lemma shooter_is_last_connect_witness :
  Some "carol" = lastConnect [(fullRefs loaded, Connect "carol")] (socketId connected)
  /\ socketId (runEvents [(fullRefs loaded, Connect "carol")] connected)
     = lastConnect [(fullRefs loaded, Connect "carol")] (socketId connected).
Proof.
apply (shooter_is_last_connect [(fullRefs loaded, Connect "carol")]
                               (fullRefs loaded) 1000 (Resolved facePose)
                               connected (Some "carol") 20).
vm_compute. auto.
Defined.

End Trigger.

(** ** Further properties of the hit-scoring loop *)
Module Scoring.

Import FloatOrder.

(** *** Poses with nothing to score *)

Lemma groupKeypoints_none parts poses :
  (forall k, In k (keypoints poses) -> gtb (score k) 0.3 = false) ->
  groupKeypoints parts poses = [].
Proof.
intros Hlow. unfold groupKeypoints.
induction parts as [|p parts IH]; [reflexivity|].
cbn [map filter].
destruct (findPart poses p) as [k|] eqn:E; cbn [confident]; [|exact IH].
unfold findPart in E. apply find_some in E as [Hin _].
rewrite (Hlow k Hin). exact IH.
Qed.

(** X8.  When no keypoint of the pose has a score above 0.3 (the empty
    pose included) the loop has nothing to iterate over: with any weapon
    its variables keep their initial values, and no shoot message is sent. *)
Theorem no_confident_keypoint_no_hit selectedGun poses :
  (forall k, In k (keypoints poses) -> gtb (score k) 0.3 = false) ->
  allKeypoints poses = []
  /\ detectHit selectedGun poses = initialLocals
  /\ forall r now s sid d,
       ~ In (EmitShoot sid d) (snd (handleShoot r now (Resolved poses) s)).
Proof.
intros Hlow.
assert (allKeypoints poses = []) as Hall.
{ unfold allKeypoints, headKeypoints, torsoKeypoints, lowerBodyKeypoints.
  now rewrite !groupKeypoints_none. }
split; [exact Hall|split].
- unfold detectHit. now rewrite Hall.
- intros r now s sid d. apply Hit.out_of_range_no_message.
  rewrite Hall. intros k [].
Qed.

Lemma no_confident_keypoint_no_hit_witness :
  allKeypoints {| keypoints := [kp "nose" 320 240 0.3] |} = []
  /\ detectHit shotgun {| keypoints := [kp "nose" 320 240 0.3] |} = initialLocals
  /\ forall r now s sid d,
       ~ In (EmitShoot sid d)
            (snd (handleShoot r now (Resolved {| keypoints := [kp "nose" 320 240 0.3] |}) s)).
Proof.
apply (no_confident_keypoint_no_hit shotgun {| keypoints := [kp "nose" 320 240 0.3] |}).
intros k [<-|[]]. vm_compute. reflexivity.
Defined.

(** *** Coordinates that are not numbers *)

Lemma is_nan_eq f : is_nan f = true -> f = nan.
Proof.
intros H. rewrite <- (SF2Prim_Prim2SF f). unfold Prim2SF. now rewrite H.
Qed.

Lemma mul_nan_l b : (nan * b)%float = nan.
Proof. apply Prim2SF_inj. now rewrite mul_spec. Qed.

Lemma sub_nan_l b : (nan - b)%float = nan.
Proof. apply Prim2SF_inj. now rewrite sub_spec. Qed.

Lemma add_nan_l b : (nan + b)%float = nan.
Proof. apply Prim2SF_inj. now rewrite add_spec. Qed.

Lemma add_nan_r a : (a + nan)%float = nan.
Proof.
apply Prim2SF_inj. rewrite add_spec.
change (Prim2SF nan) with S754_nan. now destruct (Prim2SF a).
Qed.

Lemma nan_below_no_radius selectedGun : (nan <? radius selectedGun)%float = false.
Proof. now destruct selectedGun. Qed.

(** X9.  A keypoint whose x or y coordinate is NaN is out of range of
    every weapon: its distance is NaN and [distance < radius] is false. *)
Theorem nan_coordinate_out_of_range selectedGun k :
  is_nan (x (position k)) = true \/ is_nan (y (position k)) = true ->
  inRange selectedGun k = false.
Proof.
unfold inRange, distance, adjustedX, adjustedY.
intros [H|H]; apply is_nan_eq in H; rewrite H.
- rewrite ?mul_nan_l, ?sub_nan_l, ?mul_nan_l, ?add_nan_l.
  apply nan_below_no_radius.
- rewrite ?mul_nan_l, ?sub_nan_l, ?mul_nan_l, ?add_nan_r.
  apply nan_below_no_radius.
Qed.

Lemma nan_coordinate_out_of_range_witness :
  inRange shotgun (kp "nose" 320 nan 0.9) = false.
Proof.
apply (nan_coordinate_out_of_range shotgun (kp "nose" 320 nan 0.9)).
right. reflexivity.
Defined.

(** *** The branches of the chain *)

(** X10.  A keypoint satisfies the test of at most one zone, so the
    order of the [if] / [else if] branches does not matter. *)
Theorem zone_tests_exclusive poses k z1 z2 :
  zoneCond poses z1 k = true -> zoneCond poses z2 k = true -> z1 = z2.
Proof.
intros H1 H2.
apply Hit.keypointZone_cond in H1. apply Hit.keypointZone_cond in H2.
congruence.
Qed.

Lemma zone_tests_exclusive_witness : Torso = Torso.
Proof.
apply (zone_tests_exclusive tiePose (kp "rightHip" 320 300 0.8) Torso Torso);
  vm_compute; reflexivity.
Defined.

(** *** What the loop leaves in its variables *)

(** X11.  [hitDetected] is set exactly when some keypoint of the loop is
    within the aim radius, whether or not a zone accepts it. *)
Theorem hitDetected_iff_in_range selectedGun poses :
  hitDetected (detectHit selectedGun poses) = true
  <-> exists k, In k (allKeypoints poses) /\ inRange selectedGun k = true.
Proof.
unfold detectHit. rewrite Hit.hitDetected_run.
cbn [hitDetected initialLocals orb]. apply existsb_exists.
Qed.

Lemma recorded_outcome selectedGun poses :
  (damage (detectHit selectedGun poses) = 0%Z
   /\ bestScore (detectHit selectedGun poses) = 0%float
   /\ hitType (detectHit selectedGun poses) = ""
   /\ forall z, qualifies selectedGun poses z = false)
  \/ exists w,
       qualifies selectedGun poses w = true
       /\ damage (detectHit selectedGun poses) = zoneDamage w
       /\ bestScore (detectHit selectedGun poses) = zoneScore poses w
       /\ hitType (detectHit selectedGun poses) = zoneHitType w
       /\ forall z, qualifies selectedGun poses z = true ->
                    gtb (zoneScore poses z) (zoneScore poses w) = false.
Proof.
unfold detectHit.
destruct (Hit.Recorded_run selectedGun poses (allKeypoints poses))
  as [Hn Hd Hb Ht | w l1 k l2 El Hk Hb Hd Ht H1 H2].
- left. repeat split; auto.
  intros z. destruct (qualifies selectedGun poses z) eqn:E; [|reflexivity].
  apply Hit.qualifies_candidate in E as [k [Hin Hk]].
  rewrite (Hn _ Hin) in Hk. discriminate.
- right. exists w.
  split; [apply Hit.qualifies_candidate; exists k; split; [|exact Hk];
          rewrite El; apply in_or_app; right; now left|].
  split; [exact Hd|split; [exact Hb|split; [exact Ht|]]].
  intros z Hz. apply Hit.qualifies_candidate in Hz as [k' [Hin Hz]].
  rewrite El in Hin. apply in_app_or in Hin as [Hin|[<-|Hin]].
  + unfold gtb. apply ltb_asym. exact (H1 _ _ Hin Hz).
  + assert (z = w) by congruence. subst z. unfold gtb. apply ltb_irrefl.
  + exact (H2 _ _ Hin Hz).
Qed.

Lemma qualifies_in_range selectedGun poses z :
  qualifies selectedGun poses z = true ->
  exists k, In k (allKeypoints poses) /\ inRange selectedGun k = true
            /\ zoneCond poses z k = true.
Proof.
unfold qualifies. intros H. apply existsb_exists in H as [k [Hin H]].
apply andb_true_iff in H as [Hr Hc]. now exists k.
Qed.

(** X12.  A damage other than 0 is never left without [hitDetected]: then
    a zone is reported, the best score is that zone's collective score and
    exceeds the threshold 0.5. *)
Theorem damage_implies_hit selectedGun poses :
  damage (detectHit selectedGun poses) <> 0%Z ->
  hitDetected (detectHit selectedGun poses) = true
  /\ gtb (bestScore (detectHit selectedGun poses)) threshold = true
  /\ exists w, reportedZone (detectHit selectedGun poses) = Some w
               /\ bestScore (detectHit selectedGun poses) = zoneScore poses w.
Proof.
intros Hd.
destruct (recorded_outcome selectedGun poses)
  as [[Hz _]|[w [Hq [_ [Hb [Ht _]]]]]]; [contradiction|].
apply qualifies_in_range in Hq as [k [Hin [Hr Hc]]].
split; [apply hitDetected_iff_in_range; now exists k|].
split; [rewrite Hb; now apply (Hit.zoneCond_threshold poses k)|].
exists w. split; [now apply Hit.reportedZone_hitType|exact Hb].
Qed.

Lemma damage_implies_hit_witness :
  hitDetected (detectHit pistol facePose) = true
  /\ gtb (bestScore (detectHit pistol facePose)) threshold = true
  /\ exists w, reportedZone (detectHit pistol facePose) = Some w
               /\ bestScore (detectHit pistol facePose) = zoneScore facePose w.
Proof.
apply (damage_implies_hit pistol facePose). vm_compute. discriminate.
Defined.

(** *** A wider weapon *)

Lemma inRange_wider g1 g2 k :
  gtb (radius g2) (radius g1) = true ->
  inRange g1 k = true -> inRange g2 k = true.
Proof.
unfold gtb, inRange. intros Hw H. exact (ltb_trans _ _ _ H Hw).
Qed.

Lemma qualifies_wider g1 g2 poses z :
  gtb (radius g2) (radius g1) = true ->
  qualifies g1 poses z = true -> qualifies g2 poses z = true.
Proof.
intros Hw H. apply qualifies_in_range in H as [k [Hin [Hr Hc]]].
unfold qualifies. apply existsb_exists. exists k. split; [exact Hin|].
now rewrite (inRange_wider g1 g2 k Hw Hr).
Qed.

(** X13.  A weapon of greater radius loses nothing: every keypoint in
    range stays in range, every qualifying zone still qualifies,
    [hitDetected] stays set, and the best score does not go down.  (The
    damage can: a zone of higher score and lower damage may come in range.) *)
Theorem wider_weapon_keeps_hits g1 g2 poses :
  gtb (radius g2) (radius g1) = true ->
  (forall k, inRange g1 k = true -> inRange g2 k = true)
  /\ (forall z, qualifies g1 poses z = true -> qualifies g2 poses z = true)
  /\ (hitDetected (detectHit g1 poses) = true ->
      hitDetected (detectHit g2 poses) = true)
  /\ gtb (bestScore (detectHit g1 poses)) (bestScore (detectHit g2 poses)) = false.
Proof.
intros Hw.
split; [intros k; now apply inRange_wider|].
split; [intros z; now apply qualifies_wider|].
split.
- rewrite !hitDetected_iff_in_range. intros [k [Hin Hr]].
  exists k. split; [exact Hin|now apply (inRange_wider g1 g2)].
- destruct (recorded_outcome g1 poses)
    as [[_ [Hb1 _]]|[w1 [Hq1 [_ [Hb1 _]]]]]; rewrite Hb1.
  + destruct (recorded_outcome g2 poses)
      as [[_ [Hb2 _]]|[w2 [Hq2 [_ [Hb2 _]]]]]; rewrite Hb2.
    * unfold gtb. apply ltb_irrefl.
    * apply qualifies_in_range in Hq2 as [k [_ [_ Hc]]].
      apply Hit.zoneCond_threshold, Hit.above_threshold_positive in Hc.
      unfold gtb in *. now apply ltb_asym.
  + apply (qualifies_wider g1 g2 poses w1 Hw) in Hq1.
    destruct (recorded_outcome g2 poses)
      as [[_ [_ [_ Hn]]]|[w2 [_ [_ [Hb2 [_ Hmax]]]]]].
    * rewrite Hn in Hq1. discriminate.
    * rewrite Hb2. now apply Hmax.
Qed.

Lemma wider_weapon_keeps_hits_witness :
  gtb (bestScore (detectHit sniper facePose))
      (bestScore (detectHit shotgun facePose)) = false.
Proof.
apply (wider_weapon_keeps_hits sniper shotgun facePose). reflexivity.
Defined.

(** The damage is not monotone in the radius: the sniper reaches the nose
    only (20), the pistol also a shoulder of higher collective score (15). *)
Example wider_weapon_lower_damage :
  damage (detectHit sniper
            {| keypoints := [kp "nose" 320 200 0.6; kp "leftShoulder" 470 300 0.9] |})
  = 20%Z
  /\ damage (detectHit pistol
            {| keypoints := [kp "nose" 320 200 0.6; kp "leftShoulder" 470 300 0.9] |})
     = 15%Z.
Proof. split; vm_compute; reflexivity. Qed.

(** *** How the pose is read *)






End Scoring.

(** ** What is shown *)
Module Display.

(** X15.  Whenever the lobby is shown the phase is Waiting and its banner
    is the orange "Waiting for 2 Players": the green "Game Ready!"
    alternative of the two ternaries is never rendered. *)
Theorem lobby_banner_fixed s rows note cls text :
  renderPage s = LobbyPage rows note cls text ->
  gameStatus s = Waiting
  /\ cls = "bg-orange-500" /\ text = "Waiting for 2 Players"
  /\ rows = map lobbyRow (players s)
  /\ note = Nat.ltb (List.length (players s)) 2.
Proof.
unfold renderPage. destruct (gameStatus s); cbn; intros H; try discriminate H.
injection H as <- <- <- <-. repeat split.
Qed.

Lemma lobby_banner_fixed_witness :
  gameStatus initialState = Waiting
  /\ "bg-orange-500" = "bg-orange-500"
  /\ "Waiting for 2 Players" = "Waiting for 2 Players"
  /\ [] = map lobbyRow (players initialState)
  /\ true = Nat.ltb (List.length (players initialState)) 2.
Proof.
apply (lobby_banner_fixed initialState [] true "bg-orange-500" "Waiting for 2 Players").
reflexivity.
Defined.

Lemma hud_count s i l :
  socketId s = Some i -> NoDup (map id l) ->
  List.length (filter isYou (map (hudEntry s) l))
  = if existsb (String.eqb i) (map id l) then 1%nat else 0%nat.
Proof.
intros Hs. induction l as [|p l IH]; intros Hnd; [reflexivity|].
inversion Hnd as [|q qs Hnotin Hnd']; subst.
cbn [map filter existsb]. unfold hudEntry at 1, isYou at 1. rewrite Hs. cbn [strictEq fst].
specialize (IH Hnd').
destruct (String.eqb_spec (id p) i) as [E|E].
- subst i. rewrite !String.eqb_refl. cbn [orb List.length].
  rewrite IH.
  destruct (existsb (String.eqb (id p)) (map id l)) eqn:Ex; [|reflexivity].
  apply existsb_exists in Ex as [q [Hin Hq]]. apply String.eqb_eq in Hq. subst q.
  contradiction.
- assert (String.eqb i (id p) = false) as -> by (apply String.eqb_neq; congruence).
  exact IH.
Qed.

Lemma hud_rows s i l :
  socketId s = Some i ->
  map (hudEntry s) l
  = map (fun player =>
           (if String.eqb (id player) i then "You" else "Opponent", health player)) l.
Proof.
intros Hs. apply map_ext. intros player. unfold hudEntry. now rewrite Hs.
Qed.

(** X16.  In the arena bar, for a client whose socket id is known and a
    roster with distinct ids, each entry shows the health of a player of
    the roster, in order, and reads "You" for the player whose id is the
    socket id and "Opponent" for every other; so exactly one entry reads
    "You" when the id is in the roster and none otherwise. *)
Theorem one_you_in_hud s i rows a b c :
  socketId s = Some i ->
  NoDup (map id (players s)) ->
  renderPage s = ArenaPage rows a b c ->
  rows = map (fun player =>
                (if String.eqb (id player) i then "You" else "Opponent",
                 health player))
             (players s)
  /\ List.length (filter isYou rows)
     = if existsb (String.eqb i) (map id (players s)) then 1%nat else 0%nat.
Proof.
intros Hs Hnd Hr. unfold renderPage in Hr.
destruct (gameStatus s); cbn in Hr; try discriminate Hr.
injection Hr as <- _ _ _. split; [now apply hud_rows|now apply hud_count].
Qed.

Lemma one_you_in_hud_witness :
  [("You", 100%Z); ("Opponent", 100%Z)]
  = map (fun player =>
           (if String.eqb (id player) "alice" then "You" else "Opponent",
            health player))
        (players connected)
  /\ List.length (filter isYou [("You", 100%Z); ("Opponent", 100%Z)])
     = if existsb (String.eqb "alice") (map id (players connected))
       then 1%nat else 0%nat.
Proof.
apply (one_you_in_hud connected "alice" [("You", 100%Z); ("Opponent", 100%Z)]
                      "bg-gray-700" "bg-red-500" "bg-gray-700").
- reflexivity.
- cbn. repeat constructor; cbn; intuition discriminate.
- reflexivity.
Defined.




End Display.

(** ** The camera *)
Module Camera.

(** X18.  With the refs as React leaves them once the view is committed,
    the camera effect goes past its guard exactly when the phase is Ready
    and a device is selected: the guard names the waiting phase only, and
    in the Over phase the video and canvas elements are not mounted. *)
Theorem camera_only_when_ready s video r selectedDeviceId :
  cameraStarts s (isSome (videoRef (commitRefs s video r)))
               (mountsCanvas (render s)) selectedDeviceId = true
  <-> gameStatus s = Ready /\ truthy selectedDeviceId = true.
Proof.
unfold cameraStarts, commitRefs, render.
destruct (gameStatus s), (truthy selectedDeviceId); cbn; split;
  solve [ intros H; discriminate H | intros [H1 H2]; discriminate
        | auto ].
Qed.

Lemma videoInputs_first before device after :
  (forall other, In other before -> kind other <> "videoinput") ->
  kind device = "videoinput" ->
  videoInputs (before ++ device :: after) = device :: videoInputs after.
Proof.
intros Hb Hk. unfold videoInputs. rewrite filter_app. cbn [filter].
rewrite Hk. cbn.
assert (filter (fun d => String.eqb (kind d) "videoinput") before = []) as ->; [|reflexivity].
induction before as [|o before IH]; [reflexivity|]. cbn.
destruct (String.eqb_spec (kind o) "videoinput") as [E|E].
- exfalso. apply (Hb o); [now left|exact E].
- apply IH. intros other Hin. apply Hb. now right.
Qed.

Lemma videoInputs_split devices device rest :
  videoInputs devices = device :: rest ->
  exists before after,
    devices = before ++ device :: after
    /\ (forall other, In other before -> kind other <> "videoinput")
    /\ kind device = "videoinput".
Proof.
induction devices as [|o devices IH]; [discriminate|].
unfold videoInputs in *. cbn [filter].
destruct (String.eqb_spec (kind o) "videoinput") as [E|E].
- intros [= -> _]. exists [], devices. split; [reflexivity|]. split; [intros other []|exact E].
- intros H. destruct (IH H) as [before [after [-> [Hb Hk]]]].
  exists (o :: before), after. split; [reflexivity|]. split; [|exact Hk].
  intros other [<-|Hin]; [exact E|now apply Hb].
Qed.

(** X19.  The device selected when the devices are listed is the first
    device of kind "videoinput" of the list, provided its id is not empty;
    when that id is empty, or when the list holds no video input, nothing
    is selected, and with no video input the camera effect never goes past
    its guard, in any phase and whatever is mounted. *)
Theorem initial_device devices :
  (forall before device after,
      devices = before ++ device :: after ->
      (forall other, In other before -> kind other <> "videoinput") ->
      kind device = "videoinput" ->
      initialDeviceId devices
      = if String.eqb (deviceId device) "" then None else Some (deviceId device))
  /\ (forall d,
         initialDeviceId devices = Some d ->
         d <> ""
         /\ exists before device after,
              devices = before ++ device :: after
              /\ (forall other, In other before -> kind other <> "videoinput")
              /\ kind device = "videoinput"
              /\ deviceId device = d)
  /\ ((forall device, In device devices -> kind device <> "videoinput") ->
      initialDeviceId devices = None
      /\ forall s video canvas,
           cameraStarts s video canvas (initialDeviceId devices) = false).
Proof.
split; [|split].
- intros before device after -> Hb Hk.
  unfold initialDeviceId. now rewrite videoInputs_first.
- intros d. unfold initialDeviceId, firstDeviceId.
  destruct (videoInputs devices) as [|device rest] eqn:E; [discriminate|].
  destruct (String.eqb_spec (deviceId device) "") as [Ee|Ee]; [discriminate|].
  intros [= <-]. split; [exact Ee|].
  destruct (videoInputs_split _ _ _ E) as [before [after [Hd [Hb Hk]]]].
  now exists before, device, after.
- intros Hnone.
  assert (initialDeviceId devices = None) as E.
  { unfold initialDeviceId.
    destruct (videoInputs devices) as [|device rest] eqn:E; [reflexivity|].
    destruct (videoInputs_split _ _ _ E) as [before [after [-> [_ Hk]]]].
    exfalso. apply (Hnone device); [|exact Hk].
    apply in_or_app. right. now left. }
  split; [exact E|]. intros s video canvas. rewrite E.
  unfold cameraStarts. cbn [truthy negb]. now rewrite !orb_true_r.
Qed.

(** A second camera, listed after the first. *)
Lemma initial_device_witness :
  initialDeviceId [microphone; webcam;
                   {| kind := "videoinput"; deviceId := "cam-0002"; label := "USB" |}]
  = if String.eqb (deviceId webcam) "" then None else Some (deviceId webcam).
Proof.
apply (proj1 (initial_device [microphone; webcam;
                              {| kind := "videoinput"; deviceId := "cam-0002";
                                 label := "USB" |}])
             [microphone] webcam
             [{| kind := "videoinput"; deviceId := "cam-0002"; label := "USB" |}]).
- reflexivity.
- intros other [<-|[]]. discriminate.
- reflexivity.
Defined.

End Camera.
